(** * The roadmap graph engine: learning nodes, the node repository and the
      roadmap service

    A shallow embedding of
    - [src/models/learning_node.py]        (NodeType, LearningNode),
    - [src/repositories/roadmap_repository.py] (RoadmapRepository),
    - [src/services/roadmap_service.py]    (RoadmapService),
    followed by the properties of the roadmap engine.

    Conventions of the embedding:
    - a Python [str] is a [string], a Python [int] is a [Z] (unbounded);
    - a Python [dict] is an insertion-ordered association list with the
      interpreter's behaviour on assignment written out (an existing key keeps
      its position, a new key goes last);
    - a Python [set] of strings is a [gset string];
    - a raised [ValueError] is the [Raise] case of [result];
    - the closure variables [path] and [visited] that [build_path] mutates are
      an explicit state threaded through the calls. *)

From Stdlib Require Import ZArith.
From stdpp Require Import base option list sets gmap strings relations.
From stdpp Require Import pretty sorting.

Local Open Scope Z_scope.

(* [set_solver] clears hypotheses by name; the notice it prints when a name
   is already gone is of no interest here. *)
#[local] Set Warnings "-clear-no-such-hyp".

(** ** Exceptions *)

Inductive ValueError : Type :=
  | ValueError_of (message : string).

Inductive result (A : Type) : Type :=
  | Ok (a : A)
  | Raise (e : ValueError).
Arguments Ok {A} a.
Arguments Raise {A} e.

Definition result_bind {A B} (m : result A) (k : A → result B) : result B :=
  match m with
  | Ok a => k a
  | Raise e => Raise e
  end.

Notation "x ←! m ; k" := (result_bind m (λ x, k))
  (at level 100, m at next level, k at level 200, right associativity,
   only parsing).
Notation "m ;;! k" := (result_bind m (λ _, k))
  (at level 100, k at level 200, right associativity, only parsing).

(** ** src/models/learning_node.py *)

Inductive NodeType : Type :=
  | START
  | TOPIC
  | END.

#[global] Instance NodeType_eq_dec : EqDecision NodeType.
Proof. solve_decision. Defined.

Module Node.

(** The dataclass fields, in declaration order.  The record constructor is
    the raw object, before [__post_init__] has run. *)
Record LearningNode : Type := Raw {
  id : string;
  title : string;
  description : string;
  node_type : NodeType;
  subtopics : list string;
  prerequisites : list string;
  estimated_hours : Z;
  resources : list string
}.

End Node.

Abbreviation LearningNode := Node.LearningNode.

#[global] Instance LearningNode_eq_dec : EqDecision LearningNode.
Proof. solve_decision. Defined.

(** Truth value of a [str]: only the empty string is falsy. *)
Definition str_truthy (s : string) : bool :=
  match s with
  | EmptyString => false
  | String _ _ => true
  end.

Definition id_empty_message : string := "Node ID cannot be empty".
Definition title_empty_message : string := "Node title cannot be empty".

(** [LearningNode.__post_init__] *)
Definition __post_init__ (self : LearningNode) : result unit :=
  if negb (str_truthy (Node.id self)) then
    Raise (ValueError_of id_empty_message)
  else if negb (str_truthy (Node.title self)) then
    Raise (ValueError_of title_empty_message)
  else Ok tt.

(** [LearningNode(id=..., title=..., ...)]: the generated [__init__] stores
    the fields and then calls [__post_init__]. *)
Definition new_LearningNode
    (id title description : string) (node_type : NodeType)
    (subtopics prerequisites : list string) (estimated_hours : Z)
    (resources : list string) : result LearningNode :=
  let self := Node.Raw id title description node_type subtopics prerequisites
                       estimated_hours resources in
  __post_init__ self ;;! Ok self.

(** ** Python dictionaries keyed by strings, in insertion order *)

Section dict.
Context {V : Type}.

(** [d[k] = v] *)
Fixpoint dict_set (d : list (string * V)) (k : string) (v : V)
    : list (string * V) :=
  match d with
  | [] => [(k, v)]
  | (k', v') :: d' =>
      if decide (k' = k) then (k, v) :: d' else (k', v') :: dict_set d' k v
  end.

(** [d.get(k)] *)
Fixpoint dict_get (d : list (string * V)) (k : string) : option V :=
  match d with
  | [] => None
  | (k', v') :: d' => if decide (k' = k) then Some v' else dict_get d' k
  end.

(** [d.values()] *)
Definition dict_values (d : list (string * V)) : list V := d.*2.

(** [d.keys()] *)
Definition dict_keys (d : list (string * V)) : list string := d.*1.

End dict.

(** ** src/repositories/roadmap_repository.py *)

Record RoadmapRepository : Type := Repository {
  _nodes : list (string * LearningNode)
}.

(** [RoadmapRepository()] *)
Definition new_RoadmapRepository : RoadmapRepository := Repository [].

Definition add_node (self : RoadmapRepository) (node : LearningNode)
    : RoadmapRepository :=
  Repository (dict_set (_nodes self) (Node.id node) node).

Definition get_node_by_id (self : RoadmapRepository) (node_id : string)
    : option LearningNode :=
  dict_get (_nodes self) node_id.

Definition get_all_nodes (self : RoadmapRepository) : list LearningNode :=
  dict_values (_nodes self).

(** [RoadmapRepository.load_default_roadmap]: eleven nodes are constructed
    and added one after the other; a [ValueError] of a constructor would
    propagate out of the method. *)
Definition load_default_roadmap (self : RoadmapRepository)
    : result RoadmapRepository :=
  (* Start node *)
  start_node ←! new_LearningNode
    "start" "Start" "Beginning of the AI Engineering journey" START
    [] [] 0 [];
  let self := add_node self start_node in
  (* LLM APIs node *)
  llm_apis_node ←! new_LearningNode
    "llm-apis" "LLM APIs"
    "Understanding different types of LLMs and their APIs" TOPIC
    ["Types of LLMs"; "Structured Outputs"; "Prompt Caching";
     "Multi-modal models"]
    ["start"] 20
    ["https://platform.openai.com/docs";
     "https://docs.anthropic.com/claude/docs"];
  let self := add_node self llm_apis_node in
  (* Model Adaptation node *)
  model_adaptation_node ←! new_LearningNode
    "model-adaptation" "Model Adaptation"
    "Techniques for adapting models to specific use cases" TOPIC
    ["Prompt Engineering"; "Tool Use"; "Finetuning"]
    ["llm-apis"] 30
    ["https://arxiv.org/abs/2005.14165";
     "https://huggingface.co/docs/transformers/training"];
  let self := add_node self model_adaptation_node in
  (* Storage for Retrieval node *)
  storage_node ←! new_LearningNode
    "storage-retrieval" "Storage for Retrieval"
    "Database solutions for AI applications" TOPIC
    ["Vector Databases"; "Graph Databases"; "Hybrid retrieval"]
    ["llm-apis"] 25
    ["https://weaviate.io/developers/weaviate"; "https://neo4j.com/docs/"];
  let self := add_node self storage_node in
  (* Infrastructure node *)
  infrastructure_node ←! new_LearningNode
    "infrastructure" "Infrastructure"
    "Deployment and scaling of AI applications" TOPIC
    ["Kubernetes"; "Cloud Services"; "CI/CD"; "Model Routing";
     "LLM deployment"]
    ["model-adaptation"; "storage-retrieval"] 40
    ["https://kubernetes.io/docs/"; "https://aws.amazon.com/sagemaker/"];
  let self := add_node self infrastructure_node in
  (* AI Agents node *)
  ai_agents_node ←! new_LearningNode
    "ai-agents" "AI Agents"
    "Building intelligent autonomous agents" TOPIC
    ["AI Agent Design Patterns"; "Multi-agent systems"; "Memory + Tools";
     "Planning"; "Finetuning"; "ABL, AL, etc."]
    ["model-adaptation"; "storage-retrieval"] 50
    ["https://github.com/microsoft/autogen"; "https://langchain.com/"];
  let self := add_node self ai_agents_node in
  (* RAG & Agentic RAG node *)
  rag_node ←! new_LearningNode
    "rag-agentic" "RAG & Agentic RAG"
    "Retrieval-Augmented Generation and agentic approaches" TOPIC
    ["Data retrieval and generation"; "Vector + Graph"; "MCP";
     "LLM Orchestration Frameworks"]
    ["ai-agents"; "storage-retrieval"] 35
    ["https://arxiv.org/abs/2005.11401";
     "https://github.com/langchain-ai/langchain"];
  let self := add_node self rag_node in
  (* Observability & Evaluation node *)
  observability_node ←! new_LearningNode
    "observability-evaluation" "Observability & Evaluation"
    "Monitoring and evaluating AI systems" TOPIC
    ["AI Agent instrumentation"; "Observability platforms";
     "Evaluation techniques"; "AI Agent Evaluation"]
    ["ai-agents"; "rag-agentic"] 30
    ["https://weights-and-biases.github.io/"; "https://docs.wandb.ai/"];
  let self := add_node self observability_node in
  (* Security node *)
  security_node ←! new_LearningNode
    "security" "Security"
    "Security considerations for AI applications" TOPIC
    ["Guardrails"; "Testing LLM-based applications"; "Secure orchestration"]
    ["infrastructure"; "observability-evaluation"] 25
    ["https://owasp.org/www-project-ai-security-and-privacy-guide/"];
  let self := add_node self security_node in
  (* Forward looking elements node *)
  forward_looking_node ←! new_LearningNode
    "forward-looking" "Forward looking elements"
    "Emerging trends and future technologies" TOPIC
    ["Voice and Vision Agents"; "Auto Agents";
     "Automated Prompt Engineering"]
    ["security"; "observability-evaluation"] 20
    ["https://arxiv.org/abs/2310.12397"];
  let self := add_node self forward_looking_node in
  (* End node *)
  end_node ←! new_LearningNode
    "ai-engineer" "AI Engineer"
    "Congratulations! You've completed the AI Engineering roadmap" END
    [] ["forward-looking"] 0 [];
  let self := add_node self end_node in
  Ok self.

(** ** src/services/roadmap_service.py *)

Record RoadmapService : Type := Service {
  _repository : RoadmapRepository
}.

(** The dictionary returned by [get_roadmap_overview]; it has exactly the two
    keys below. *)
Record Overview : Type := MkOverview {
  total_nodes : Z;
  estimated_total_hours : Z
}.

(** The builtin [sum] over a generator: start at 0, add from left to right. *)
Definition py_sum {A} (f : A → Z) (l : list A) : Z :=
  fold_left (λ acc x, acc + f x) l 0.

Definition py_len {A} (l : list A) : Z := Z.of_nat (length l).

Definition get_roadmap_overview (self : RoadmapService) : Overview :=
  let nodes := get_all_nodes (_repository self) in
  let total_hours := py_sum Node.estimated_hours nodes in
  {| total_nodes := py_len nodes; estimated_total_hours := total_hours |}.

(** The state shared by the calls of the inner function [build_path]. *)
Record PathState : Type := MkPathState {
  path : list LearningNode;
  visited : gset string
}.

(** A [for] loop whose body updates a state and may fail to return. *)
Fixpoint for_each {A S} (body : A → S → option S) (l : list A) (st : S)
    : option S :=
  match l with
  | [] => Some st
  | x :: l' =>
      match body x st with
      | Some st' => for_each body l' st'
      | None => None
      end
  end.

(** The inner function [build_path] of [get_learning_path].  The recursion is
    not structural, so the model is bounded by the depth of the nested calls:
    [None] means that [depth] nested calls were not enough. *)
Fixpoint build_path (repository : RoadmapRepository) (depth : nat)
    (node_id : string) (st : PathState) : option PathState :=
  match depth with
  | O => None
  | S depth' =>
      if decide (node_id ∈ visited st) then Some st
      else
        match get_node_by_id repository node_id with
        | None => Some st
        | Some node =>
            let st := MkPathState (path st) (visited st ∪ {[node_id]}) in
            (* Add prerequisites first *)
            match for_each (build_path repository depth')
                           (Node.prerequisites node) st with
            | Some st => Some (MkPathState (path st ++ [node]) (visited st))
            | None => None
            end
        end
  end.

(** [get_learning_path].  The nesting of [build_path] never exceeds the number
    of stored nodes plus one (each nested call that goes on marks a stored id
    that was not marked), which is the depth given here; that it suffices is
    [build_path_returns] below. *)
Definition get_learning_path (self : RoadmapService) (target_node_id : string)
    : option (list LearningNode) :=
  match get_node_by_id (_repository self) target_node_id with
  | None => Some []
  | Some target_node =>
      let depth := S (length (_nodes (_repository self))) in
      path <$> build_path (_repository self) depth target_node_id
                          (MkPathState [] ∅)
  end.

Definition get_prerequisites (self : RoadmapService) (node_id : string)
    : list LearningNode :=
  match get_node_by_id (_repository self) node_id with
  | None => []
  | Some node =>
      fold_left
        (λ prerequisites prereq_id,
           match get_node_by_id (_repository self) prereq_id with
           | Some prereq_node => prerequisites ++ [prereq_node]
           | None => prerequisites
           end)
        (Node.prerequisites node) []
  end.

(** [all(prereq_id in completed_set for prereq_id in node.prerequisites)] *)
Definition prerequisites_met (completed_set : gset string)
    (node : LearningNode) : bool :=
  forallb (λ prereq_id, bool_decide (prereq_id ∈ completed_set))
          (Node.prerequisites node).

Definition get_next_recommended_topics (self : RoadmapService)
    (completed_topics : list string) : list LearningNode :=
  let completed_set : gset string := list_to_set completed_topics in
  let all_nodes := get_all_nodes (_repository self) in
  fold_left
    (λ recommended node,
       (* Skip if already completed *)
       if decide (Node.id node ∈ completed_set) then recommended
       (* Skip start and end nodes *)
       else if decide (Node.node_type node ∈ [START; END]) then recommended
       (* Check if all prerequisites are met *)
       else if prerequisites_met completed_set node
            then recommended ++ [node]
            else recommended)
    all_nodes [].

Definition calculate_remaining_hours (self : RoadmapService)
    (completed_topics : list string) : Z :=
  let completed_set : gset string := list_to_set completed_topics in
  let all_nodes := get_all_nodes (_repository self) in
  fold_left
    (λ remaining_hours node,
       if decide (Node.id node ∉ completed_set)
       then remaining_hours + Node.estimated_hours node
       else remaining_hours)
    all_nodes 0.

(** ** src/ui/gradio_ui_service.py *)

Record GradioUIService : Type := UIService {
  _roadmap_service : RoadmapService
}.

(** [str(n)] for an [int], as an f-string field prints it: decimal digits
    with a leading minus sign for a negative number. *)
Definition py_str_int (n : Z) : string := pretty n.

(** [f"{node.title} ({node.estimated_hours}h)"] *)
Definition display_name (node : LearningNode) : string :=
  Node.title node +:+ " (" +:+ py_str_int (Node.estimated_hours node) +:+ "h)".

(** The builtin [sorted(l, key=key)] for string keys: ascending in the order
    of [str] (lexicographic on the characters; a [string] holds the UTF-8
    bytes, on which the lexicographic order is that of the code points) and
    stable, so elements with equal keys stay in their order.  Each element
    is put in front of the first element of the sorted rest whose key is not
    smaller. *)
Fixpoint py_sorted_insert {A} (key : A → string) (x : A) (l : list A)
    : list A :=
  match l with
  | [] => [x]
  | y :: l' =>
      if String.leb (key x) (key y) then x :: y :: l'
      else y :: py_sorted_insert key x l'
  end.

Definition py_sorted {A} (key : A → string) (l : list A) : list A :=
  foldr (py_sorted_insert key) [] l.

(** [GradioUIService.get_topic_choices] *)
Definition get_topic_choices (self : GradioUIService)
    : list (string * string) :=
  let repo_nodes := get_all_nodes (_repository (_roadmap_service self)) in
  let choices :=
    fold_left
      (λ choices node,
         if decide (Node.node_type node = TOPIC)
         then choices ++ [(display_name node, Node.id node)]
         else choices)
      repo_nodes [] in
  py_sorted fst choices.

(** ** src/app.py: the progress callbacks of [create_gradio_app]

    The callbacks close over the list [completed_topics] and return the
    progress display.  The functions below give the list after the call; the
    display is a string computed from that list without changing it. *)

(** [l.remove(x)]: the first occurrence goes, [ValueError] if there is
    none. *)
Fixpoint py_list_remove (l : list string) (x : string)
    : result (list string) :=
  match l with
  | [] => Raise (ValueError_of "list.remove(x): x not in list")
  | y :: l' =>
      if decide (y = x) then Ok l'
      else l'' ←! py_list_remove l' x; Ok (y :: l'')
  end.

Definition add_completed_topic (completed_topics : list string)
    (topic_id : string) : list string :=
  if str_truthy topic_id && bool_decide (topic_id ∉ completed_topics)
  then completed_topics ++ [topic_id]
  else completed_topics.

Definition remove_completed_topic (completed_topics : list string)
    (topic_id : string) : result (list string) :=
  if decide (topic_id ∈ completed_topics)
  then py_list_remove completed_topics topic_id
  else Ok completed_topics.

Definition reset_progress (completed_topics : list string) : list string :=
  [].

(** * Vocabulary of the properties *)

(** ** The repository invariant

    [_nodes] is a dictionary, so its keys are pairwise distinct, and
    [add_node], the only writer, files every node under its own id. *)

Definition repository_wf (r : RoadmapRepository) : Prop :=
  NoDup (dict_keys (_nodes r)) ∧
  Forall (λ kv, kv.1 = Node.id kv.2) (_nodes r).

#[global] Instance repository_wf_dec r : Decision (repository_wf r).
Proof. unfold repository_wf. apply _. Defined.

(** ** Sums, kinds, eligibility *)

Definition Zsum (l : list Z) : Z := foldr Z.add 0 l.

Definition nodes_of_type (k : NodeType) (nodes : list LearningNode)
    : list LearningNode :=
  filter (λ n, Node.node_type n = k) nodes.

(** The eligibility rule in the words of the specification. *)
Definition recommendable (completed_ids : list string) (node : LearningNode)
    : Prop :=
  (Node.id node ∉ completed_ids) ∧
  Node.node_type node = TOPIC ∧
  Forall (λ p, p ∈ completed_ids) (Node.prerequisites node).

#[global] Instance recommendable_dec completed_ids node :
  Decision (recommendable completed_ids node).
Proof. unfold recommendable. apply _. Defined.

(** The hours of the completed ids, each id looked up in the store. *)
Definition completed_hours (r : RoadmapRepository)
    (completed_ids : list string) : Z :=
  py_sum (λ i, from_option Node.estimated_hours 0 (get_node_by_id r i))
         completed_ids.

(** ** The prerequisite graph *)

(** [prerequisite_of r p n]: the node stored under [n] lists [p] as a
    prerequisite, and [p] is itself stored (an edge [p → n] of the graph). *)
Definition prerequisite_of (r : RoadmapRepository) (p n : string) : Prop :=
  ∃ node, get_node_by_id r n = Some node
          ∧ p ∈ Node.prerequisites node
          ∧ is_Some (get_node_by_id r p).

(** No id is a prerequisite of itself through one or more edges. *)
Definition acyclic (r : RoadmapRepository) : Prop :=
  ∀ x, ¬ tc (prerequisite_of r) x x.

(** The position of a key in a list of keys (0 for a key that is absent). *)
Definition position (keys : list string) (k : string) : nat :=
  from_option fst 0%nat (list_find (λ k', k' = k) keys).

(** A sufficient, decidable condition for [acyclic]: every node is stored
    after its stored prerequisites. *)
Definition prerequisites_stored_before (r : RoadmapRepository) : Prop :=
  let keys := dict_keys (_nodes r) in
  Forall (λ kv,
            Forall (λ p, is_Some (get_node_by_id r p) →
                         (position keys p < position keys kv.1)%nat)
                   (Node.prerequisites kv.2))
         (_nodes r).

#[global] Instance prerequisites_stored_before_dec r :
  Decision (prerequisites_stored_before r).
Proof. unfold prerequisites_stored_before. apply _. Defined.

(** Every stored prerequisite of a node of the path occurs at a strictly
    smaller index of the path. *)
Definition prerequisites_earlier (r : RoadmapRepository)
    (P : list LearningNode) : Prop :=
  ∀ i n p, P !! i = Some n →
    p ∈ Node.prerequisites n → is_Some (get_node_by_id r p) →
    ∃ j m, (j < i)%nat ∧ P !! j = Some m ∧ Node.id m = p.

(** ** The traversal *)

Definition stored_ids (r : RoadmapRepository) : gset string :=
  list_to_set (dict_keys (_nodes r)).

(** The number of stored ids that are not marked as visited: it bounds the
    depth of the calls that are still to come. *)
Definition unvisited (r : RoadmapRepository) (V : gset string) : nat :=
  size (stored_ids r ∖ V).

(** The invariant of [build_path].  [stack] is the set of the ids whose call
    is still running: they are marked as visited and not yet appended. *)
Record dfs_inv (r : RoadmapRepository) (stack : gset string)
    (st : PathState) : Prop := {
  inv_visited : visited st = list_to_set (Node.id <$> path st) ∪ stack;
  inv_disjoint : ∀ i, i ∈ Node.id <$> path st → i ∉ stack;
  inv_NoDup : NoDup (Node.id <$> path st);
  inv_stored :
    Forall (λ n, get_node_by_id r (Node.id n) = Some n) (path st);
  inv_order : prerequisites_earlier r (path st)
}.

(** An id that is called while [stack] is running is a prerequisite, direct
    or not, of every id of [stack]. *)
Definition below (r : RoadmapRepository) (stack : gset string) (x : string)
    : Prop :=
  is_Some (get_node_by_id r x) →
  ∀ g, g ∈ stack → tc (prerequisite_of r) x g.

(** What one call [build_path x] achieves. *)
Definition call_post (r : RoadmapRepository) (stack : gset string)
    (x : string) (st st' : PathState) : Prop :=
  dfs_inv r stack st' ∧
  (∃ new, path st' = path st ++ new) ∧
  (is_Some (get_node_by_id r x) → x ∈ Node.id <$> path st') ∧
  (x ∉ visited st → ∀ node, get_node_by_id r x = Some node →
     ∃ P, path st' = P ++ [node]).

(** ** Fixtures used to instantiate the theorems *)

Definition default_repository : RoadmapRepository :=
  match load_default_roadmap new_RoadmapRepository with
  | Ok r => r
  | Raise _ => new_RoadmapRepository
  end.

Definition default_service : RoadmapService := Service default_repository.

(** A repository with a diamond ([d] needs [b] and [c], which both need [a])
    and a prerequisite id, [ghost], that is not stored. *)
Definition diamond_repository : RoadmapRepository :=
  let node i k ps h := Node.Raw i i "n/a" k [] ps h [] in
  add_node (add_node (add_node (add_node new_RoadmapRepository
    (node "a" START [] 0))
    (node "b" TOPIC ["a"; "ghost"] 3))
    (node "c" TOPIC ["a"] 5))
    (node "d" END ["b"; "ghost"; "c"] 7).

Definition diamond_service : RoadmapService := Service diamond_repository.

(** Two nodes that require each other. *)
Definition cyclic_service : RoadmapService :=
  let node i ps := Node.Raw i i "n/a" TOPIC [] ps 1 [] in
  Service (add_node (add_node new_RoadmapRepository (node "a" ["b"]))
                    (node "b" ["a"])).

(** ** Vocabulary of the further properties *)

(** [add_node] called for each node of a list, in the order of the list. *)
Definition add_nodes (r : RoadmapRepository) (nodes : list LearningNode)
    : RoadmapRepository :=
  fold_left add_node nodes r.

(** The nodes of the default roadmap, in the order in which they are added. *)
Definition default_nodes : list LearningNode :=
  get_all_nodes default_repository.

(** The invariant of [build_path] that holds with or without cycles: as
    [dfs_inv], with the order of the path replaced by the fact that the
    stored prerequisites of a node of the path are at least marked. *)
Record traversal_inv (r : RoadmapRepository) (stack : gset string)
    (st : PathState) : Prop := {
  tv_visited : visited st = list_to_set (Node.id <$> path st) ∪ stack;
  tv_disjoint : ∀ i, i ∈ Node.id <$> path st → i ∉ stack;
  tv_NoDup : NoDup (Node.id <$> path st);
  tv_stored :
    Forall (λ n, get_node_by_id r (Node.id n) = Some n) (path st);
  tv_closed : ∀ n p, n ∈ path st → p ∈ Node.prerequisites n →
    is_Some (get_node_by_id r p) → p ∈ visited st
}.

(** What one call [build_path x] achieves, with or without cycles: the nodes
    it appends are [x] and prerequisites of [x], direct or not. *)
Definition traversal_post (r : RoadmapRepository) (stack : gset string)
    (x : string) (st st' : PathState) : Prop :=
  traversal_inv r stack st' ∧
  (∃ new, path st' = path st ++ new ∧
     ∀ n, n ∈ new → rtc (prerequisite_of r) (Node.id n) x) ∧
  (is_Some (get_node_by_id r x) → x ∈ visited st') ∧
  (x ∉ visited st → ∀ node, get_node_by_id r x = Some node →
     ∃ P, path st' = P ++ [node]).

(** The order of the keys of [py_sorted]. *)
Definition key_le {A} (key : A → string) (x y : A) : Prop :=
  String.leb (key x) (key y) = true.

(** The entry that [get_topic_choices] makes for a node. *)
Definition topic_choice (node : LearningNode) : string * string :=
  (display_name node, Node.id node).

(** The three buttons of the progress tracker, and the list
    [completed_topics] after a click and after a sequence of clicks. *)
Inductive ProgressClick : Type :=
  | MarkComplete (topic_id : string)
  | Remove (topic_id : string)
  | ResetAll.

Definition click (completed_topics : list string) (c : ProgressClick)
    : result (list string) :=
  match c with
  | MarkComplete topic_id => Ok (add_completed_topic completed_topics topic_id)
  | Remove topic_id => remove_completed_topic completed_topics topic_id
  | ResetAll => Ok (reset_progress completed_topics)
  end.

Fixpoint clicks (completed_topics : list string) (cs : list ProgressClick)
    : result (list string) :=
  match cs with
  | [] => Ok completed_topics
  | c :: cs' =>
      completed_topics' ←! click completed_topics c;
      clicks completed_topics' cs'
  end.

(** * Properties *)

(** ** Dictionaries *)

Section dict_facts.
Context {V : Type}.
Implicit Types (d : list (string * V)) (k : string) (v : V).

Lemma dict_get_Some_elem d k v : dict_get d k = Some v → (k, v) ∈ d.
Proof.
  induction d as [|[k' v'] d IH]; simpl; [done|].
  case_decide as Hk; intros Hget.
  - simplify_eq. apply list_elem_of_here.
  - apply list_elem_of_further; auto.
Qed.

Lemma dict_get_None d k : dict_get d k = None ↔ k ∉ dict_keys d.
Proof.
  unfold dict_keys. induction d as [|[k' v'] d IH]; simpl.
  - split; [intros _; apply not_elem_of_nil | done].
  - rewrite not_elem_of_cons. destruct (decide (k' = k)) as [->|Hne].
    + split; [done | by intros [? _]].
    + rewrite IH. split; [intros ?; split; [congruence | done]|].
      by intros [_ ?].
Qed.

Lemma dict_get_is_Some d k : is_Some (dict_get d k) ↔ k ∈ dict_keys d.
Proof.
  rewrite <-not_eq_None_Some, dict_get_None.
  split; [apply dec_stable | auto].
Qed.

Lemma dict_get_elem d k v :
  NoDup (dict_keys d) → (k, v) ∈ d → dict_get d k = Some v.
Proof.
  unfold dict_keys. induction d as [|[k' v'] d IH]; simpl.
  - intros _ H. by apply elem_of_nil in H.
  - rewrite NoDup_cons, elem_of_cons. intros [Hk' Hnd] [Heq|Hin].
    + simplify_eq. by rewrite decide_True.
    + rewrite decide_False; [auto|].
      intros ->. apply Hk'. apply list_elem_of_fmap. by exists (k, v).
Qed.

Lemma dict_get_set_eq d k v : dict_get (dict_set d k v) k = Some v.
Proof.
  induction d as [|[k' v'] d IH]; simpl.
  - by rewrite decide_True.
  - case_decide; simpl; [by rewrite decide_True | by rewrite decide_False].
Qed.

Lemma dict_get_set_ne d k k' v :
  k ≠ k' → dict_get (dict_set d k v) k' = dict_get d k'.
Proof.
  intros Hne. induction d as [|[k0 v0] d IH]; simpl.
  - by rewrite decide_False.
  - destruct (decide (k0 = k)) as [->|]; simpl.
    + by rewrite !decide_False.
    + by rewrite IH.
Qed.

Lemma dict_keys_set_present d k v :
  k ∈ dict_keys d → dict_keys (dict_set d k v) = dict_keys d.
Proof.
  unfold dict_keys. induction d as [|[k0 v0] d IH]; simpl.
  - intros H. by apply elem_of_nil in H.
  - rewrite elem_of_cons. intros Hin.
    destruct (decide (k0 = k)) as [->|Hne]; simpl; [done|].
    destruct Hin as [->|Hin]; [done|]. f_equal. by apply IH.
Qed.

Lemma dict_keys_set_absent d k v :
  k ∉ dict_keys d → dict_keys (dict_set d k v) = dict_keys d ++ [k].
Proof.
  unfold dict_keys. induction d as [|[k0 v0] d IH]; simpl; [done|].
  rewrite not_elem_of_cons. intros [Hne Hin].
  rewrite decide_False by done. simpl. f_equal. by apply IH.
Qed.

Lemma dict_set_elem d k v k' v' :
  (k', v') ∈ dict_set d k v → (k', v') = (k, v) ∨ (k', v') ∈ d.
Proof.
  induction d as [|[k0 v0] d IH]; simpl.
  - rewrite list_elem_of_singleton. auto.
  - destruct (decide (k0 = k)) as [->|Hne]; rewrite !elem_of_cons.
    + intros [H|H]; [by left | right; by right].
    + intros [H|H]; [right; by left|].
      destruct (IH H) as [?|?]; [by left | right; by right].
Qed.
End dict_facts.

(** ** The repository invariant *)

Lemma new_RoadmapRepository_wf : repository_wf new_RoadmapRepository.
Proof. split; [apply NoDup_nil_2 | apply Forall_nil_2]. Qed.

Lemma add_node_wf r node : repository_wf r → repository_wf (add_node r node).
Proof.
  intros [Hnd Hid]. split; simpl.
  - destruct (decide (Node.id node ∈ dict_keys (_nodes r))) as [Hin|Hin].
    + by rewrite dict_keys_set_present.
    + rewrite dict_keys_set_absent by done.
      apply NoDup_app. split_and!; [done | | apply NoDup_singleton].
      intros k Hk ->%list_elem_of_singleton. done.
  - apply Forall_forall. intros [k v] [Heq|Hin]%dict_set_elem.
    + by simplify_eq.
    + by apply (proj1 (Forall_forall _ _) Hid (k, v)).
Qed.

Section repository_facts.
Context (r : RoadmapRepository) (Hwf : repository_wf r).

Lemma get_node_by_id_id k node :
  get_node_by_id r k = Some node → Node.id node = k.
Proof using Hwf.
  intros H%dict_get_Some_elem. destruct Hwf as [_ Hid].
  symmetry. apply (proj1 (Forall_forall _ _) Hid (k, node) H).
Qed.

Lemma get_node_by_id_stored k node :
  get_node_by_id r k = Some node → node ∈ get_all_nodes r.
Proof.
  intros H%dict_get_Some_elem. apply list_elem_of_fmap. by exists (k, node).
Qed.

Lemma get_all_nodes_get node :
  node ∈ get_all_nodes r → get_node_by_id r (Node.id node) = Some node.
Proof using Hwf.
  intros [[k v] [-> Hin]]%list_elem_of_fmap. simpl.
  destruct Hwf as [Hnd Hid]. apply dict_get_elem; [done|].
  pose proof (proj1 (Forall_forall _ _) Hid (k, v) Hin) as Hk.
  simpl in Hk. by rewrite <-Hk.
Qed.

Lemma get_all_nodes_ids :
  Node.id <$> get_all_nodes r = dict_keys (_nodes r).
Proof using Hwf.
  destruct Hwf as [_ Hid]. unfold get_all_nodes, dict_values, dict_keys.
  induction Hid as [|[k v] d Hkv _ IH]; simpl in *; [done|].
  by f_equal.
Qed.

Lemma get_all_nodes_NoDup_ids : NoDup (Node.id <$> get_all_nodes r).
Proof using Hwf. rewrite get_all_nodes_ids. apply Hwf. Qed.

Lemma get_all_nodes_NoDup : NoDup (get_all_nodes r).
Proof using Hwf. eapply NoDup_fmap_1, get_all_nodes_NoDup_ids. Qed.
End repository_facts.

(** ** Sums and loops *)

Lemma fold_left_add_Zsum {A} (f : A → Z) (l : list A) (a : Z) :
  fold_left (λ acc x, acc + f x) l a = a + Zsum (f <$> l).
Proof.
  unfold Zsum. revert a. induction l as [|x l IH]; intros a; csimpl; [lia|].
  rewrite IH. lia.
Qed.

Lemma py_sum_Zsum {A} (f : A → Z) (l : list A) : py_sum f l = Zsum (f <$> l).
Proof. unfold py_sum. by rewrite fold_left_add_Zsum. Qed.

Lemma Zsum_Permutation (l1 l2 : list Z) : l1 ≡ₚ l2 → Zsum l1 = Zsum l2.
Proof. unfold Zsum. induction 1; simpl; lia. Qed.

Lemma Zsum_filter_split {A} (f : A → Z) (P : A → Prop)
    `{!∀ x, Decision (P x)} (l : list A) :
  Zsum (f <$> l) =
  Zsum (f <$> filter P l) + Zsum (f <$> filter (λ x, ¬ P x) l).
Proof.
  unfold Zsum. induction l as [|x l IH]; csimpl; [done|].
  rewrite !filter_cons. destruct (decide (P x)) as [HP|HP].
  - rewrite decide_False by tauto. csimpl. lia.
  - rewrite decide_True by done. csimpl. lia.
Qed.

(** A loop that appends the elements passing a test is a [filter]. *)
Lemma fold_left_append_filter {A} (P : A → Prop) `{!∀ x, Decision (P x)}
    (body : list A → A → list A) (l acc : list A) :
  (∀ acc x, body acc x = if decide (P x) then acc ++ [x] else acc) →
  fold_left body l acc = acc ++ filter P l.
Proof.
  intros Hbody. revert acc.
  induction l as [|x l IH]; intros acc; simpl.
  - by rewrite app_nil_r.
  - rewrite IH, Hbody, filter_cons.
    destruct (decide (P x)); [by rewrite <-app_assoc | done].
Qed.

(** A loop that appends the results that are not [None] is an [omap]. *)
Lemma fold_left_append_omap {A B} (f : A → option B) (l : list A)
    (acc : list B) :
  fold_left (λ acc x, match f x with Some y => acc ++ [y] | None => acc end)
            l acc
  = acc ++ omap f l.
Proof.
  revert acc. induction l as [|x l IH]; intros acc; simpl.
  - by rewrite app_nil_r.
  - rewrite IH. destruct (f x); [by rewrite <-app_assoc | done].
Qed.

(** ** The fixtures *)

Lemma load_default_roadmap_Ok :
  load_default_roadmap new_RoadmapRepository = Ok default_repository.
Proof. reflexivity. Qed.

Lemma default_repository_wf : repository_wf default_repository.
Proof. apply (bool_decide_unpack _). vm_compute. reflexivity. Qed.

Lemma diamond_repository_wf : repository_wf diamond_repository.
Proof. repeat apply add_node_wf. apply new_RoadmapRepository_wf. Qed.

(** ** The node store *)

(** C9: adding a node whose id is already a key of the store overwrites the
    entry filed under that id: [get_node_by_id] then returns the new node,
    the other ids resolve as before, and the number of stored nodes and the
    keys do not change ([add_node] is a total function, nothing is raised). *)
Theorem add_node_overwrites (r : RoadmapRepository) (X : string)
    (node : LearningNode) :
  is_Some (get_node_by_id r X) →
  Node.id node = X →
  get_node_by_id (add_node r node) X = Some node ∧
  length (get_all_nodes (add_node r node)) = length (get_all_nodes r) ∧
  dict_keys (_nodes (add_node r node)) = dict_keys (_nodes r) ∧
  ∀ k, k ≠ X → get_node_by_id (add_node r node) k = get_node_by_id r k.
Proof.
  intros HX%dict_get_is_Some <-. unfold get_node_by_id, add_node; simpl.
  split_and!.
  - apply dict_get_set_eq.
  - unfold get_all_nodes, dict_values. simpl.
    rewrite !length_fmap, <-!(length_fmap fst).
    f_equal. by apply dict_keys_set_present.
  - by apply dict_keys_set_present.
  - intros k Hk. by apply dict_get_set_ne.
Qed.

Lemma add_node_overwrites_witness :
  let node := Node.Raw "llm-apis" "LLM APIs, 2nd edition" "rewritten" TOPIC
                       [] ["start"] 99 [] in
  is_Some (get_node_by_id default_repository "llm-apis") ∧
  get_node_by_id (add_node default_repository node) "llm-apis" = Some node ∧
  length (get_all_nodes (add_node default_repository node)) = 11%nat.
Proof.
  intros node.
  assert (is_Some (get_node_by_id default_repository "llm-apis")) as Hs.
  { apply (bool_decide_unpack _). vm_compute. reflexivity. }
  destruct (add_node_overwrites default_repository "llm-apis" node Hs
              eq_refl) as (Hget & Hlen & _).
  split_and!; [exact Hs | exact Hget | rewrite Hlen; reflexivity].
Defined.

(** ** Node construction *)

(** C6: constructing a node raises exactly when the id or the title is empty
    (the id is looked at first), and otherwise returns the node with the
    fields as given, whatever the other fields are. *)
Theorem new_LearningNode_validation
    (id title description : string) (node_type : NodeType)
    (subtopics prerequisites : list string) (estimated_hours : Z)
    (resources : list string) :
  let made := new_LearningNode id title description node_type subtopics
                               prerequisites estimated_hours resources in
  ((∃ e, made = Raise e) ↔ id = EmptyString ∨ title = EmptyString) ∧
  (made = Ok (Node.Raw id title description node_type subtopics
                       prerequisites estimated_hours resources)
   ↔ id ≠ EmptyString ∧ title ≠ EmptyString) ∧
  (made = Raise (ValueError_of id_empty_message) ↔ id = EmptyString) ∧
  (made = Raise (ValueError_of title_empty_message)
   ↔ id ≠ EmptyString ∧ title = EmptyString).
Proof.
  unfold new_LearningNode, __post_init__; simpl.
  destruct id as [|a id], title as [|b title]; simpl;
    split_and!; split; try done; try (intros [? ?]; done);
    try (intros [?|?]; done); eauto.
Qed.

(** ** The overview *)

Lemma length_nodes_of_type (nodes : list LearningNode) :
  length nodes = (length (nodes_of_type START nodes)
                  + length (nodes_of_type TOPIC nodes)
                  + length (nodes_of_type END nodes))%nat.
Proof.
  unfold nodes_of_type. induction nodes as [|n nodes IH]; [done|].
  rewrite !filter_cons. destruct (Node.node_type n) eqn:Hk;
    repeat case_decide; simplify_eq; simpl; lia.
Qed.

Lemma Zsum_nodes_of_type (nodes : list LearningNode) :
  Zsum (Node.estimated_hours <$> nodes) =
  Zsum (Node.estimated_hours <$> nodes_of_type START nodes)
  + Zsum (Node.estimated_hours <$> nodes_of_type TOPIC nodes)
  + Zsum (Node.estimated_hours <$> nodes_of_type END nodes).
Proof.
  unfold nodes_of_type, Zsum. induction nodes as [|n nodes IH]; [done|].
  rewrite !filter_cons. destruct (Node.node_type n) eqn:Hk;
    repeat case_decide; simplify_eq; csimpl; lia.
Qed.

(** C4: the overview counts every stored node and adds up the hours of every
    stored node; nodes of the kinds START and END are counted and summed like
    the others. *)
Theorem get_roadmap_overview_all_nodes (s : RoadmapService) :
  let nodes := get_all_nodes (_repository s) in
  let overview := get_roadmap_overview s in
  total_nodes overview = Z.of_nat (length nodes) ∧
  estimated_total_hours overview = Zsum (Node.estimated_hours <$> nodes) ∧
  total_nodes overview =
    Z.of_nat (length (nodes_of_type START nodes))
    + Z.of_nat (length (nodes_of_type TOPIC nodes))
    + Z.of_nat (length (nodes_of_type END nodes)) ∧
  estimated_total_hours overview =
    Zsum (Node.estimated_hours <$> nodes_of_type START nodes)
    + Zsum (Node.estimated_hours <$> nodes_of_type TOPIC nodes)
    + Zsum (Node.estimated_hours <$> nodes_of_type END nodes).
Proof.
  intros nodes overview. subst overview. unfold get_roadmap_overview; simpl.
  fold nodes. rewrite py_sum_Zsum. unfold py_len. split_and!; try done.
  - rewrite (length_nodes_of_type nodes) at 1. lia.
  - apply Zsum_nodes_of_type.
Qed.

(** C7: loading the default roadmap into an empty repository raises nothing
    and stores exactly the eleven listed ids; the overview then reports 11
    nodes and 275 hours. *)
Theorem load_default_roadmap_overview :
  ∃ r, load_default_roadmap new_RoadmapRepository = Ok r ∧
    dict_keys (_nodes r) =
      ["start"; "llm-apis"; "model-adaptation"; "storage-retrieval";
       "infrastructure"; "ai-agents"; "rag-agentic";
       "observability-evaluation"; "security"; "forward-looking";
       "ai-engineer"] ∧
    get_roadmap_overview (Service r) =
      {| total_nodes := 11; estimated_total_hours := 275 |}.
Proof. eexists. split_and!; [reflexivity | vm_compute; reflexivity ..]. Qed.

(** ** Direct prerequisites *)

(** C8: for a stored node, [get_prerequisites] resolves the listed
    prerequisite ids against the store in the listed order and leaves out the
    ones that do not resolve, so the ids of the result are the listed ids
    that are stored; for an id that is not stored the result is empty. *)
Theorem get_prerequisites_resolves (s : RoadmapService) (node_id : string) :
  repository_wf (_repository s) →
  let r := _repository s in
  match get_node_by_id r node_id with
  | Some node =>
      get_prerequisites s node_id
        = omap (get_node_by_id r) (Node.prerequisites node) ∧
      Node.id <$> get_prerequisites s node_id
        = filter (λ p, is_Some (get_node_by_id r p)) (Node.prerequisites node)
  | None => get_prerequisites s node_id = []
  end.
Proof.
  intros Hwf r. unfold get_prerequisites. fold r.
  destruct (get_node_by_id r node_id) as [node|]; [|done].
  rewrite fold_left_append_omap. simpl. split; [done|].
  induction (Node.prerequisites node) as [|p ps IH]; [done|].
  rewrite filter_cons.
  destruct (decide (is_Some (get_node_by_id r p))) as [[n Hp]|Hp]; simpl.
  - rewrite Hp. csimpl. rewrite IH.
    by rewrite (get_node_by_id_id r Hwf p n Hp).
  - destruct (get_node_by_id r p); [by destruct Hp | done].
Qed.

Lemma get_prerequisites_resolves_witness :
  repository_wf diamond_repository ∧
  (Node.id <$> get_prerequisites diamond_service "d" = ["b"; "c"]) ∧
  get_prerequisites diamond_service "nowhere" = [].
Proof.
  pose proof diamond_repository_wf as Hwf.
  split_and!.
  - exact Hwf.
  - exact (proj2 (get_prerequisites_resolves diamond_service "d" Hwf)).
  - exact (get_prerequisites_resolves diamond_service "nowhere" Hwf).
Defined.

(** ** Recommendations and remaining hours *)

Lemma prerequisites_met_Forall (completed_ids : list string)
    (node : LearningNode) :
  prerequisites_met (list_to_set completed_ids) node = true ↔
  Forall (λ p, p ∈ completed_ids) (Node.prerequisites node).
Proof.
  unfold prerequisites_met. rewrite forallb_forall, Forall_forall.
  apply forall_proper; intros p. rewrite <-list_elem_of_In.
  by rewrite bool_decide_eq_true, elem_of_list_to_set.
Qed.

Lemma not_start_end_TOPIC (k : NodeType) : k ∉ [START; END] ↔ k = TOPIC.
Proof.
  rewrite !not_elem_of_cons. destruct k; split; intros H; try done;
    try (by destruct H as (? & ? & ?)).
  split_and!; [done | done | apply not_elem_of_nil].
Qed.

(** C2: the recommended nodes are the stored nodes that are not completed,
    are of kind TOPIC and have all their listed prerequisites completed, in
    the order in which the store enumerates its nodes. *)
Theorem get_next_recommended_topics_spec (s : RoadmapService)
    (completed_ids : list string) :
  get_next_recommended_topics s completed_ids
    = filter (recommendable completed_ids) (get_all_nodes (_repository s)) ∧
  ∀ node, node ∈ get_next_recommended_topics s completed_ids ↔
    node ∈ get_all_nodes (_repository s) ∧
    (Node.id node ∉ completed_ids) ∧
    Node.node_type node = TOPIC ∧
    Forall (λ p, p ∈ completed_ids) (Node.prerequisites node).
Proof.
  assert (get_next_recommended_topics s completed_ids
    = filter (recommendable completed_ids) (get_all_nodes (_repository s)))
    as Heq.
  { unfold get_next_recommended_topics.
    rewrite (fold_left_append_filter (recommendable completed_ids));
      [done|].
    intros acc node. unfold recommendable.
    pose proof (prerequisites_met_Forall completed_ids node) as Hmet.
    pose proof (not_start_end_TOPIC (Node.node_type node)) as Hkind.
    pose proof (elem_of_list_to_set (C:=gset string)
                  (Node.id node) completed_ids) as Hin.
    destruct (prerequisites_met _ node);
      repeat case_decide; try done; exfalso; intuition congruence. }
  split; [done|]. intros node.
  rewrite Heq, list_elem_of_filter. unfold recommendable. tauto.
Qed.

Lemma list_to_set_same_elements (l1 l2 : list string) :
  (∀ x, x ∈ l1 ↔ x ∈ l2) →
  list_to_set (C:=gset string) l1 = list_to_set l2.
Proof.
  intros H. apply set_eq. intros x. by rewrite !elem_of_list_to_set.
Qed.

(** C10: recommendations and remaining hours depend on the completed list
    only through the set of its elements. *)
Theorem completed_topics_as_set (s : RoadmapService)
    (completed1 completed2 : list string) :
  (∀ x, x ∈ completed1 ↔ x ∈ completed2) →
  get_next_recommended_topics s completed1
    = get_next_recommended_topics s completed2 ∧
  calculate_remaining_hours s completed1
    = calculate_remaining_hours s completed2.
Proof.
  intros H%list_to_set_same_elements.
  unfold get_next_recommended_topics, calculate_remaining_hours.
  by rewrite H.
Qed.

Lemma completed_topics_as_set_witness :
  let c1 := ["start"; "llm-apis"] in
  let c2 := ["llm-apis"; "start"; "llm-apis"; "start"] in
  (∀ x, x ∈ c1 ↔ x ∈ c2) ∧
  get_next_recommended_topics default_service c1
    = get_next_recommended_topics default_service c2 ∧
  calculate_remaining_hours default_service c1
    = calculate_remaining_hours default_service c2.
Proof.
  intros c1 c2.
  assert (∀ x, x ∈ c1 ↔ x ∈ c2) as H.
  { intros x. subst c1 c2. rewrite !elem_of_cons. tauto. }
  split; [exact H|].
  exact (completed_topics_as_set default_service c1 c2 H).
Defined.

Lemma calculate_remaining_hours_Zsum (s : RoadmapService)
    (completed_ids : list string) :
  calculate_remaining_hours s completed_ids =
  Zsum (Node.estimated_hours <$>
        filter (λ n, Node.id n ∉ completed_ids)
               (get_all_nodes (_repository s))).
Proof.
  unfold calculate_remaining_hours.
  generalize (get_all_nodes (_repository s)). intros nodes.
  assert (∀ a, fold_left
    (λ remaining_hours node,
       if decide (Node.id node ∉ (list_to_set completed_ids : gset string))
       then remaining_hours + Node.estimated_hours node
       else remaining_hours) nodes a
    = a + Zsum (Node.estimated_hours <$>
                filter (λ n, Node.id n ∉ completed_ids) nodes)) as H.
  { unfold Zsum. induction nodes as [|n nodes IH]; intros a; csimpl; [lia|].
    rewrite IH, filter_cons.
    pose proof (elem_of_list_to_set (C:=gset string)
                  (Node.id n) completed_ids) as Hin.
    repeat case_decide; csimpl; try lia; exfalso; tauto. }
  by rewrite H.
Qed.

(** Distinct stored ids, looked up, are the stored nodes with one of these
    ids, up to the order. *)
Lemma omap_get_node_by_id_Permutation (r : RoadmapRepository)
    (completed_ids : list string) :
  repository_wf r → NoDup completed_ids →
  omap (get_node_by_id r) completed_ids
  ≡ₚ filter (λ n, Node.id n ∈ completed_ids) (get_all_nodes r).
Proof.
  intros Hwf Hnd. apply NoDup_Permutation.
  - induction Hnd as [|i l Hi Hnd IH]; csimpl.
    + apply NoDup_nil_2.
    + destruct (get_node_by_id r i) as [n|] eqn:Hn; [|done].
      apply NoDup_cons. split; [|done].
      intros (j & Hj & Hjn)%list_elem_of_omap.
      apply (get_node_by_id_id r Hwf) in Hn, Hjn. congruence.
  - apply NoDup_filter, get_all_nodes_NoDup, Hwf.
  - intros n. rewrite list_elem_of_omap, list_elem_of_filter. split.
    + intros (i & Hi & Hn). split.
      * by rewrite (get_node_by_id_id r Hwf i n Hn).
      * by eapply get_node_by_id_stored.
    + intros [Hid Hn]. exists (Node.id n). split; [done|].
      by apply get_all_nodes_get.
Qed.

(** C3: when the completed ids are pairwise distinct and all stored, the
    remaining hours and the hours of the completed nodes add up to the total
    of the overview. *)
Theorem remaining_plus_completed_hours (s : RoadmapService)
    (completed_ids : list string) :
  repository_wf (_repository s) →
  NoDup completed_ids →
  (∀ i, i ∈ completed_ids → is_Some (get_node_by_id (_repository s) i)) →
  calculate_remaining_hours s completed_ids
  + completed_hours (_repository s) completed_ids
  = estimated_total_hours (get_roadmap_overview s).
Proof.
  intros Hwf Hnd Hvalid. rewrite calculate_remaining_hours_Zsum.
  set (r := _repository s) in *.
  unfold get_roadmap_overview, completed_hours; simpl. fold r.
  rewrite !py_sum_Zsum.
  rewrite (Zsum_filter_split Node.estimated_hours
             (λ n, Node.id n ∈ completed_ids) (get_all_nodes r)).
  rewrite Z.add_comm. f_equal.
  assert ((λ i, from_option Node.estimated_hours 0 (get_node_by_id r i))
            <$> completed_ids
          = Node.estimated_hours <$> omap (get_node_by_id r) completed_ids)
    as ->.
  { clear Hnd. induction completed_ids as [|i l IH]; [done|]. csimpl.
    destruct (Hvalid i) as [n Hn]; [apply list_elem_of_here|].
    rewrite Hn. csimpl. f_equal. apply IH.
    intros j Hj. apply Hvalid. by apply list_elem_of_further. }
  by apply Zsum_Permutation, fmap_Permutation,
           omap_get_node_by_id_Permutation.
Qed.

Lemma remaining_plus_completed_hours_witness :
  let completed_ids := ["start"; "llm-apis"; "security"] in
  repository_wf (_repository default_service) ∧
  NoDup completed_ids ∧
  (∀ i, i ∈ completed_ids →
        is_Some (get_node_by_id (_repository default_service) i)) ∧
  calculate_remaining_hours default_service completed_ids
  + completed_hours (_repository default_service) completed_ids = 275.
Proof.
  intros completed_ids.
  pose proof default_repository_wf as Hwf.
  assert (NoDup completed_ids) as Hnd.
  { apply (bool_decide_unpack _). vm_compute. reflexivity. }
  assert (∀ i, i ∈ completed_ids →
               is_Some (get_node_by_id (_repository default_service) i))
    as Hvalid.
  { apply Forall_forall. apply (bool_decide_unpack _). vm_compute.
    reflexivity. }
  split_and!; [exact Hwf | exact Hnd | exact Hvalid |].
  exact (remaining_plus_completed_hours default_service completed_ids
           Hwf Hnd Hvalid).
Defined.

(** The two side conditions are needed: a repeated id, or an id that is not
    stored, is counted by [completed_hours] and not by the store. *)
Example remaining_plus_completed_hours_repeated :
  calculate_remaining_hours default_service ["llm-apis"; "llm-apis"]
  + completed_hours default_repository ["llm-apis"; "llm-apis"] = 295.
Proof. vm_compute. reflexivity. Qed.

Example calculate_remaining_hours_default :
  calculate_remaining_hours default_service ["start"; "llm-apis"] = 255.
Proof. vm_compute. reflexivity. Qed.

(** ** The learning path *)

(** C5: for an id that is not stored the learning path is the empty list; the
    lookup returns [None], nothing is raised and [build_path] is not even
    entered. *)
Theorem get_learning_path_unknown (s : RoadmapService) (target_id : string) :
  get_node_by_id (_repository s) target_id = None →
  get_learning_path s target_id = Some [].
Proof. intros H. unfold get_learning_path. by rewrite H. Qed.

Lemma get_learning_path_unknown_witness :
  get_node_by_id (_repository default_service) "quantum-computing" = None ∧
  get_learning_path default_service "quantum-computing" = Some [].
Proof.
  assert (get_node_by_id (_repository default_service) "quantum-computing"
          = None) as H by (vm_compute; reflexivity).
  split; [exact H|].
  exact (get_learning_path_unknown default_service "quantum-computing" H).
Defined.

(** *** [build_path] returns *)

Lemma elem_of_stored_ids r k :
  k ∈ stored_ids r ↔ is_Some (get_node_by_id r k).
Proof.
  unfold stored_ids, get_node_by_id.
  by rewrite elem_of_list_to_set, dict_get_is_Some.
Qed.

Lemma unvisited_mono r (V V' : gset string) :
  V ⊆ V' → (unvisited r V' ≤ unvisited r V)%nat.
Proof. intros H. apply subseteq_size. set_solver. Qed.

Lemma unvisited_mark r (V : gset string) k :
  k ∈ stored_ids r → k ∉ V →
  (unvisited r (V ∪ {[k]}) < unvisited r V)%nat.
Proof. intros Hk HV. apply subset_size. set_solver. Qed.

Lemma size_list_to_set_le (l : list string) :
  (size (list_to_set (C:=gset string) l) ≤ length l)%nat.
Proof.
  induction l as [|k l IH].
  - by rewrite list_to_set_nil, size_empty.
  - rewrite list_to_set_cons, size_union_alt, size_singleton. simpl.
    apply le_n_S. etrans; [apply subseteq_size|exact IH]. set_solver.
Qed.

Lemma unvisited_empty r : (unvisited r ∅ ≤ length (_nodes r))%nat.
Proof.
  unfold unvisited, stored_ids, dict_keys.
  rewrite difference_empty_L, <-(length_fmap fst).
  apply size_list_to_set_le.
Qed.

Section build_path_returns.
Context (r : RoadmapRepository).

Lemma for_each_build_path_returns (depth : nat) (l : list string) :
  (∀ x st, (unvisited r (visited st) < depth)%nat →
     ∃ st', build_path r depth x st = Some st'
            ∧ visited st ⊆ visited st') →
  ∀ st, (unvisited r (visited st) < depth)%nat →
    ∃ st', for_each (build_path r depth) l st = Some st'
           ∧ visited st ⊆ visited st'.
Proof.
  intros Hcall. induction l as [|x l IH]; intros st Hst; simpl.
  - by exists st.
  - destruct (Hcall x st Hst) as (st1 & -> & Hsub1).
    destruct (IH st1) as (st2 & -> & Hsub2).
    + eapply Nat.le_lt_trans; [by apply unvisited_mono | done].
    + exists st2. split; [done | by etrans].
Qed.

(** A depth above the number of unvisited stored ids is enough. *)
Lemma build_path_returns (depth : nat) (x : string) (st : PathState) :
  (unvisited r (visited st) < depth)%nat →
  ∃ st', build_path r depth x st = Some st' ∧ visited st ⊆ visited st'.
Proof.
  revert x st. induction depth as [|depth IH]; intros x st Hst; [lia|].
  simpl. case_decide as Hvis; [by exists st|].
  destruct (get_node_by_id r x) as [node|] eqn:Hget; [|by exists st].
  set (st1 := MkPathState (path st) (visited st ∪ {[x]})).
  destruct (for_each_build_path_returns depth (Node.prerequisites node)
              IH st1) as (st2 & -> & Hsub).
  - simpl. assert (x ∈ stored_ids r) as Hx
      by (apply elem_of_stored_ids; eauto).
    pose proof (unvisited_mark r (visited st) x Hx Hvis). lia.
  - eexists. split; [done|]. simpl in *. set_solver.
Qed.
End build_path_returns.

(** *** Cycles *)

(** A numbering of the ids that grows along every edge excludes cycles. *)
Lemma ranked_acyclic r (rank : string → nat) :
  (∀ p n, prerequisite_of r p n → (rank p < rank n)%nat) → acyclic r.
Proof.
  intros Hrank.
  assert (∀ x y, tc (prerequisite_of r) x y → (rank x < rank y)%nat) as Htc.
  { induction 1 as [x y Hxy|x y z Hxy _ IH].
    - by apply Hrank.
    - apply Hrank in Hxy. lia. }
  intros x Hx%Htc. lia.
Qed.

Lemma prerequisites_stored_before_acyclic r :
  prerequisites_stored_before r → acyclic r.
Proof.
  intros H. apply (ranked_acyclic r (position (dict_keys (_nodes r)))).
  intros p n (node & Hn%dict_get_Some_elem & Hp & Hstored).
  pose proof (proj1 (Forall_forall _ _) H (n, node) Hn) as Hnode.
  by apply (proj1 (Forall_forall _ _) Hnode p Hp).
Qed.

Lemma default_repository_acyclic : acyclic default_repository.
Proof.
  apply prerequisites_stored_before_acyclic.
  apply (bool_decide_unpack _). vm_compute. reflexivity.
Qed.

(** *** Paths that respect the prerequisites *)

Lemma prerequisites_earlier_nil r : prerequisites_earlier r [].
Proof. intros i n p Hi. by rewrite lookup_nil in Hi. Qed.

Lemma prerequisites_earlier_snoc r (P : list LearningNode) node :
  prerequisites_earlier r P →
  (∀ p, p ∈ Node.prerequisites node → is_Some (get_node_by_id r p) →
        p ∈ Node.id <$> P) →
  prerequisites_earlier r (P ++ [node]).
Proof.
  intros HP Hnode i n p [[Hlt Hi]|[-> <-]]%lookup_snoc_Some Hp Hstored.
  - destruct (HP i n p Hi Hp Hstored) as (j & m & Hj & Hm & Hid).
    exists j, m. split_and!; [done | by apply lookup_app_l_Some | done].
  - destruct (proj1 (list_elem_of_fmap _ _ _) (Hnode p Hp Hstored))
      as (m & Hid & [j Hj]%list_elem_of_lookup).
    exists j, m. split_and!; [|by apply lookup_app_l_Some|done].
    by eapply lookup_lt_Some.
Qed.

(** *** The invariant of the traversal *)

Lemma dfs_inv_initial r : dfs_inv r ∅ (MkPathState [] ∅).
Proof.
  split; simpl.
  - set_solver.
  - intros i Hi. by apply elem_of_nil in Hi.
  - apply NoDup_nil_2.
  - apply Forall_nil_2.
  - apply prerequisites_earlier_nil.
Qed.

Section build_path_invariant.
Context (r : RoadmapRepository).
Hypothesis Hwf : repository_wf r.

(** Entering a call: the id is marked and joins the stack. *)
Lemma dfs_inv_enter stack st x :
  dfs_inv r stack st → x ∉ visited st →
  dfs_inv r (stack ∪ {[x]}) (MkPathState (path st) (visited st ∪ {[x]})).
Proof.
  intros [HV Hdis Hnd Hst Hord] Hx. split; simpl; try done.
  - rewrite HV. set_solver.
  - intros i Hi. rewrite HV in Hx. specialize (Hdis i Hi). set_solver.
Qed.

(** Leaving a call: the node is appended and leaves the stack, provided its
    stored prerequisites are in the path by then. *)
Lemma dfs_inv_leave stack st x node :
  get_node_by_id r x = Some node → x ∉ stack →
  dfs_inv r (stack ∪ {[x]}) st →
  (∀ p, p ∈ Node.prerequisites node → is_Some (get_node_by_id r p) →
        p ∈ Node.id <$> path st) →
  dfs_inv r stack (MkPathState (path st ++ [node]) (visited st)).
Proof using Hwf.
  intros Hget Hx [HV Hdis Hnd Hst Hord] Hpre.
  pose proof (get_node_by_id_id r Hwf x node Hget) as Hid.
  split; simpl.
  - rewrite HV, fmap_app, list_to_set_app_L. simpl. rewrite Hid.
    set_solver.
  - rewrite fmap_app. simpl. rewrite Hid.
    intros i [Hi| ->%list_elem_of_singleton]%elem_of_app; [|done].
    specialize (Hdis i Hi). set_solver.
  - rewrite fmap_app. simpl. rewrite Hid. apply NoDup_app.
    split_and!; [done | | apply NoDup_singleton].
    intros i Hi ->%list_elem_of_singleton.
    specialize (Hdis x Hi). set_solver.
  - apply Forall_app. split; [done|].
    apply Forall_singleton. by rewrite Hid.
  - by apply prerequisites_earlier_snoc.
Qed.

Hypothesis Hacyclic : acyclic r.

Lemma below_not_in_stack stack x :
  below r stack x → is_Some (get_node_by_id r x) → x ∉ stack.
Proof using Hacyclic. intros Hx Hs Hin. by apply (Hacyclic x), Hx. Qed.

(** The loop over the prerequisites, given the property of the calls it
    makes. *)
Lemma for_each_build_path_inv (depth : nat) (l : list string) :
  (∀ x st st' stack,
     build_path r depth x st = Some st' →
     dfs_inv r stack st → below r stack x → call_post r stack x st st') →
  ∀ st st' stack,
    for_each (build_path r depth) l st = Some st' →
    dfs_inv r stack st → (∀ p, p ∈ l → below r stack p) →
    dfs_inv r stack st' ∧
    (∃ new, path st' = path st ++ new) ∧
    (∀ p, p ∈ l → is_Some (get_node_by_id r p) → p ∈ Node.id <$> path st').
Proof.
  intros Hcall. induction l as [|x l IH]; intros st st' stack; simpl.
  - intros [= <-] Hinv _. split_and!; [done | | ].
    + exists []. by rewrite app_nil_r.
    + intros p Hp. by apply elem_of_nil in Hp.
  - destruct (build_path r depth x st) as [st1|] eqn:Hx; [|done].
    intros Hrest Hinv Hbelow.
    destruct (Hcall x st st1 stack Hx Hinv) as (Hinv1 & [n1 Hn1] & Hx1 & _).
    { apply Hbelow, list_elem_of_here. }
    destruct (IH st1 st' stack Hrest Hinv1) as (Hinv' & [n2 Hn2] & Hl).
    { intros p Hp. by apply Hbelow, list_elem_of_further. }
    split_and!; [done | | ].
    + exists (n1 ++ n2). by rewrite Hn2, Hn1, app_assoc.
    + intros p [->|Hp]%elem_of_cons Hs; [|by apply Hl].
      rewrite Hn2, fmap_app. apply elem_of_app. left. by apply Hx1.
Qed.

Lemma build_path_inv (depth : nat) :
  ∀ x st st' stack,
    build_path r depth x st = Some st' →
    dfs_inv r stack st → below r stack x → call_post r stack x st st'.
Proof using Hwf Hacyclic.
  induction depth as [|depth IH]; intros x st st' stack; [done|].
  simpl. intros Hrun Hinv Hbelow.
  destruct (decide (x ∈ visited st)) as [Hvis|Hvis].
  { (* visited already: appended before, since it is not on the stack *)
    injection Hrun as <-. split_and!; [done | | | done].
    - exists []. by rewrite app_nil_r.
    - intros Hs. pose proof (below_not_in_stack stack x Hbelow Hs).
      rewrite (inv_visited _ _ _ Hinv) in Hvis. set_solver. }
  destruct (get_node_by_id r x) as [node|] eqn:Hget.
  2:{ injection Hrun as <-. split_and!; [done | | | ].
      - exists []. by rewrite app_nil_r.
      - rewrite Hget. by intros [? ?].
      - intros _ node. by rewrite Hget. }
  set (st1 := MkPathState (path st) (visited st ∪ {[x]})) in Hrun.
  destruct (for_each (build_path r depth) (Node.prerequisites node) st1)
    as [st2|] eqn:Hloop; [|done].
  injection Hrun as <-.
  assert (x ∉ stack) as Hx.
  { rewrite (inv_visited _ _ _ Hinv) in Hvis. set_solver. }
  destruct (for_each_build_path_inv depth (Node.prerequisites node) IH
              st1 st2 (stack ∪ {[x]}) Hloop)
    as (Hinv2 & [new Hnew] & Hpre).
  - by apply dfs_inv_enter.
  - intros p Hp Hs g Hg.
    assert (prerequisite_of r p x) as Hedge by (by exists node).
    apply elem_of_union in Hg as [Hg| ->%elem_of_singleton].
    + eapply tc_l; [exact Hedge|]. apply Hbelow; eauto.
    + by apply tc_once.
  - split_and!; simpl.
    + by eapply dfs_inv_leave.
    + exists (new ++ [node]). rewrite Hnew. simpl. by rewrite app_assoc.
    + intros _. rewrite fmap_app. apply elem_of_app. right. simpl.
      rewrite (get_node_by_id_id r Hwf x node Hget).
      apply list_elem_of_here.
    + intros _ node' Hnode'. rewrite Hget in Hnode'.
      injection Hnode' as <-. by exists (path st2).
Qed.
End build_path_invariant.

(** X23: [get_learning_path] returns for every store and every id, also when
    the prerequisites form a cycle: the visited set stops the recursion, and
    the depth given to [build_path] is enough. *)
Lemma get_learning_path_returns (s : RoadmapService) (target_id : string) :
  is_Some (get_learning_path s target_id).
Proof.
  unfold get_learning_path.
  destruct (get_node_by_id (_repository s) target_id); [|by eexists].
  destruct (build_path_returns (_repository s)
              (S (length (_nodes (_repository s)))) target_id
              (MkPathState [] ∅)) as (st' & -> & _); [|by eexists].
  simpl. pose proof (unvisited_empty (_repository s)). lia.
Qed.

(** C1: in a store without prerequisite cycles, the learning path of a stored
    id is returned, ends with the node of that id, holds no node twice, and
    lists every stored prerequisite of each of its nodes at a strictly
    smaller index than the node itself.  (The recursion limit of the
    interpreter is outside the model.) *)
Theorem get_learning_path_topological (s : RoadmapService)
    (target_id : string) :
  repository_wf (_repository s) →
  acyclic (_repository s) →
  is_Some (get_node_by_id (_repository s) target_id) →
  ∃ nodes,
    get_learning_path s target_id = Some nodes ∧
    (∃ target, get_node_by_id (_repository s) target_id = Some target ∧
               last nodes = Some target ∧ Node.id target = target_id) ∧
    (∀ n, n ∈ nodes → get_node_by_id (_repository s) (Node.id n) = Some n) ∧
    NoDup nodes ∧
    NoDup (Node.id <$> nodes) ∧
    (∀ i n p,
       nodes !! i = Some n →
       p ∈ Node.prerequisites n →
       is_Some (get_node_by_id (_repository s) p) →
       ∃ j m, (j < i)%nat ∧ nodes !! j = Some m ∧ Node.id m = p).
Proof.
  intros Hwf Hacyclic [target Hget]. set (r := _repository s) in *.
  unfold get_learning_path. fold r. rewrite Hget.
  set (depth := S (length (_nodes r))).
  destruct (build_path_returns r depth target_id (MkPathState [] ∅))
    as (st' & Hrun & _).
  { simpl. pose proof (unvisited_empty r). subst depth. lia. }
  rewrite Hrun. simpl. exists (path st').
  destruct (build_path_inv r Hwf Hacyclic depth target_id
              (MkPathState [] ∅) st' ∅ Hrun)
    as ([_ _ Hnd Hst Hord] & _ & _ & Hlast).
  - apply dfs_inv_initial.
  - intros _ g Hg. by apply not_elem_of_empty in Hg.
  - destruct (Hlast (not_elem_of_empty _) target Hget) as [P HP].
    split_and!; [done | | | by eapply NoDup_fmap_1 | done | exact Hord].
    + exists target. split_and!; [done | |].
      * by rewrite HP, last_snoc.
      * by apply (get_node_by_id_id r Hwf).
    + by apply Forall_forall.
Qed.

Lemma get_learning_path_topological_witness :
  repository_wf (_repository default_service) ∧
  acyclic (_repository default_service) ∧
  is_Some (get_node_by_id (_repository default_service) "ai-engineer") ∧
  ∃ nodes,
    get_learning_path default_service "ai-engineer" = Some nodes ∧
    (∃ target, get_node_by_id (_repository default_service) "ai-engineer" = Some target ∧
               last nodes = Some target ∧ Node.id target = "ai-engineer") ∧
    (∀ n, n ∈ nodes → get_node_by_id (_repository default_service) (Node.id n) = Some n) ∧
    NoDup nodes ∧
    NoDup (Node.id <$> nodes) ∧
    (∀ i n p,
       nodes !! i = Some n →
       p ∈ Node.prerequisites n →
       is_Some (get_node_by_id (_repository default_service) p) →
       ∃ j m, (j < i)%nat ∧ nodes !! j = Some m ∧ Node.id m = p).
Proof.
  pose proof default_repository_wf as Hwf.
  pose proof default_repository_acyclic as Hacyclic.
  assert (is_Some (get_node_by_id (_repository default_service)
                                  "ai-engineer")) as Hstored.
  { apply (bool_decide_unpack _). vm_compute. reflexivity. }
  split_and!; [exact Hwf | exact Hacyclic | exact Hstored |].
  exact (get_learning_path_topological default_service "ai-engineer"
           Hwf Hacyclic Hstored).
Defined.

(** The path of the default roadmap, and of the diamond: a node reached along
    two routes is listed once. *)
Example get_learning_path_default :
  (λ nodes : list LearningNode, Node.id <$> nodes) <$>
    get_learning_path default_service "ai-engineer"
  = Some ["start"; "llm-apis"; "model-adaptation"; "storage-retrieval";
          "infrastructure"; "ai-agents"; "rag-agentic";
          "observability-evaluation"; "security"; "forward-looking";
          "ai-engineer"].
Proof. vm_compute. reflexivity. Qed.

Example get_learning_path_diamond :
  (λ nodes : list LearningNode, Node.id <$> nodes) <$>
    get_learning_path diamond_service "d"
  = Some ["a"; "b"; "c"; "d"].
Proof. vm_compute. reflexivity. Qed.

(** Without the hypothesis on cycles the order is lost: when [a] and [b]
    require each other, the path of [a] lists [b] before its prerequisite
    [a]. *)
Example get_learning_path_cyclic :
  (λ nodes : list LearningNode, Node.id <$> nodes) <$>
    get_learning_path cyclic_service "a"
  = Some ["b"; "a"].
Proof. vm_compute. reflexivity. Qed.

(** * Further properties *)

(** ** The node store: new ids, repeated ids, sequences of additions *)

Lemma dict_set_absent {V} (d : list (string * V)) k v :
  dict_get d k = None → dict_set d k v = d ++ [(k, v)].
Proof.
  induction d as [|[k' v'] d IH]; simpl; [done|].
  destruct (decide (k' = k)); [done|]. intros H. by rewrite IH.
Qed.

Lemma dict_set_same {V} (d : list (string * V)) k v :
  dict_get d k = Some v → dict_set d k v = d.
Proof.
  induction d as [|[k' v'] d IH]; simpl; [done|].
  destruct (decide (k' = k)) as [->|]; [by intros [= ->]|].
  intros H. by rewrite IH.
Qed.

Lemma dict_set_set {V} (d : list (string * V)) k v1 v2 :
  dict_set (dict_set d k v1) k v2 = dict_set d k v2.
Proof.
  induction d as [|[k' v'] d IH]; simpl.
  - by rewrite decide_True.
  - destruct (decide (k' = k)) as [->|]; simpl.
    + by rewrite decide_True.
    + rewrite decide_False by done. by rewrite IH.
Qed.

(** X1: adding a node whose id is not stored puts it last in the enumeration
    of the store; it is then found under its id, and every other id resolves
    as before. *)
Theorem add_node_fresh (r : RoadmapRepository) (node : LearningNode) :
  get_node_by_id r (Node.id node) = None →
  get_all_nodes (add_node r node) = get_all_nodes r ++ [node] ∧
  get_node_by_id (add_node r node) (Node.id node) = Some node ∧
  ∀ k, k ≠ Node.id node →
       get_node_by_id (add_node r node) k = get_node_by_id r k.
Proof.
  intros Hnew. unfold get_all_nodes, get_node_by_id, add_node, dict_values.
  simpl. split_and!.
  - rewrite dict_set_absent by done. by rewrite fmap_app.
  - apply dict_get_set_eq.
  - intros k Hk. by apply dict_get_set_ne.
Qed.

Lemma add_node_fresh_witness :
  let node := Node.Raw "mlops" "MLOps" "n/a" TOPIC [] ["infrastructure"] 15 []
  in
  get_node_by_id default_repository "mlops" = None ∧
  get_all_nodes (add_node default_repository node)
    = get_all_nodes default_repository ++ [node].
Proof.
  intros node.
  assert (get_node_by_id default_repository (Node.id node) = None) as H
    by (vm_compute; reflexivity).
  split; [exact H|].
  exact (proj1 (add_node_fresh default_repository node H)).
Defined.

(** X2: adding two nodes with the same id, one after the other, leaves the
    store as if only the second had been added. *)
Theorem add_node_twice (r : RoadmapRepository) (node1 node2 : LearningNode) :
  Node.id node1 = Node.id node2 →
  add_node (add_node r node1) node2 = add_node r node2.
Proof.
  intros Hid. unfold add_node. simpl. rewrite Hid. by rewrite dict_set_set.
Qed.

Lemma add_node_twice_witness :
  let node1 := Node.Raw "x" "first" "n/a" TOPIC [] [] 1 [] in
  let node2 := Node.Raw "x" "second" "n/a" TOPIC [] ["start"] 2 [] in
  Node.id node1 = Node.id node2 ∧
  add_node (add_node default_repository node1) node2
    = add_node default_repository node2.
Proof.
  intros node1 node2.
  assert (Node.id node1 = Node.id node2) as H by reflexivity.
  split; [exact H|].
  exact (add_node_twice default_repository node1 node2 H).
Defined.

Lemma add_nodes_snoc r nodes node :
  add_nodes r (nodes ++ [node]) = add_node (add_nodes r nodes) node.
Proof. unfold add_nodes. by rewrite fold_left_app. Qed.

Lemma add_nodes_wf r nodes : repository_wf r → repository_wf (add_nodes r nodes).
Proof.
  intros Hwf. induction nodes as [|node nodes IH] using rev_ind; [done|].
  rewrite add_nodes_snoc. by apply add_node_wf.
Qed.

(** X3: whatever sequence of nodes is added to an empty repository, the
    stored nodes have pairwise distinct ids, and a node is enumerated by the
    store exactly when it is the one found under its id. *)
Theorem add_nodes_consistent (nodes : list LearningNode) :
  let r := add_nodes new_RoadmapRepository nodes in
  NoDup (Node.id <$> get_all_nodes r) ∧
  ∀ n, n ∈ get_all_nodes r ↔ get_node_by_id r (Node.id n) = Some n.
Proof.
  intros r.
  assert (repository_wf r) as Hwf
    by apply add_nodes_wf, new_RoadmapRepository_wf.
  split.
  - by apply get_all_nodes_NoDup_ids.
  - intros n. split.
    + by apply get_all_nodes_get.
    + by apply get_node_by_id_stored.
Qed.

(** The last node of a list that has a given id, if any. *)
Lemma add_nodes_lookup r nodes k :
  get_node_by_id (add_nodes r nodes) k =
  match last (filter (λ n, Node.id n = k) nodes) with
  | Some n => Some n
  | None => get_node_by_id r k
  end.
Proof.
  induction nodes as [|node nodes IH] using rev_ind; [done|].
  rewrite add_nodes_snoc, filter_app, filter_cons, filter_nil.
  destruct (decide (Node.id node = k)) as [<-|Hne].
  - rewrite last_snoc. apply dict_get_set_eq.
  - rewrite app_nil_r, <-IH. by apply dict_get_set_ne.
Qed.

(** X4: after a sequence of additions, an id resolves to the last node of
    the sequence that has this id, and to what was stored before when the
    sequence has no such node (last write wins). *)
Theorem add_nodes_last_write_wins (r : RoadmapRepository)
    (nodes : list LearningNode) (k : string) :
  get_node_by_id (add_nodes r nodes) k =
  match last (filter (λ n, Node.id n = k) nodes) with
  | Some n => Some n
  | None => get_node_by_id r k
  end.
Proof. apply add_nodes_lookup. Qed.

(** ** Loading the default roadmap into any repository *)

Lemma load_default_roadmap_add_nodes r :
  load_default_roadmap r = Ok (add_nodes r default_nodes).
Proof. reflexivity. Qed.

Lemma default_repository_add_nodes :
  default_repository = add_nodes new_RoadmapRepository default_nodes.
Proof. vm_compute. reflexivity. Qed.

Lemma add_nodes_same r nodes :
  (∀ n, n ∈ nodes → get_node_by_id r (Node.id n) = Some n) →
  add_nodes r nodes = r.
Proof.
  induction nodes as [|node nodes IH]; intros Hall; [done|].
  assert (add_node r node = r) as Hsame.
  { destruct r as [d]. unfold add_node. simpl. f_equal.
    apply dict_set_same. apply (Hall node), list_elem_of_here. }
  unfold add_nodes. simpl. rewrite Hsame. apply IH.
  intros n Hn. by apply Hall, list_elem_of_further.
Qed.

Lemma load_default_roadmap_lookup r k :
  get_node_by_id (add_nodes r default_nodes) k =
  match get_node_by_id default_repository k with
  | Some n => Some n
  | None => get_node_by_id r k
  end.
Proof.
  rewrite default_repository_add_nodes, !add_nodes_lookup.
  by destruct (last _).
Qed.

(** X5: [load_default_roadmap] works on any repository, not only on an empty
    one.  It raises nothing; afterwards the eleven default ids resolve to the
    default nodes, whatever was stored under them, and every other id
    resolves as before; and loading a second time changes nothing. *)
Theorem load_default_roadmap_any (r : RoadmapRepository) :
  ∃ r', load_default_roadmap r = Ok r' ∧
    (∀ k, get_node_by_id r' k =
          match get_node_by_id default_repository k with
          | Some n => Some n
          | None => get_node_by_id r k
          end) ∧
    load_default_roadmap r' = Ok r'.
Proof.
  exists (add_nodes r default_nodes). split_and!.
  - apply load_default_roadmap_add_nodes.
  - apply load_default_roadmap_lookup.
  - rewrite load_default_roadmap_add_nodes. f_equal. apply add_nodes_same.
    intros n Hn. rewrite load_default_roadmap_lookup.
    by rewrite (get_all_nodes_get default_repository default_repository_wf).
Qed.

(** For instance a repository that holds another [llm-apis] and a node of
    its own keeps its own node and gets the default [llm-apis]. *)
Example load_default_roadmap_overwrites :
  let mine := Node.Raw "mlops" "MLOps" "n/a" TOPIC [] [] 15 [] in
  let other := Node.Raw "llm-apis" "Other" "n/a" TOPIC [] [] 1 [] in
  let r := add_node (add_node new_RoadmapRepository mine) other in
  ∃ r', load_default_roadmap r = Ok r' ∧
    dict_keys (_nodes r') = "mlops" :: "llm-apis" :: "start"
                            :: drop 2 (dict_keys (_nodes default_repository)) ∧
    get_node_by_id r' "mlops" = Some mine ∧
    get_node_by_id r' "llm-apis" = get_node_by_id default_repository "llm-apis".
Proof. eexists. split_and!; [reflexivity | vm_compute; reflexivity ..]. Qed.

(** ** The learning path in any store, with or without cycles *)

Lemma prerequisite_of_rtc_stored r a b :
  rtc (prerequisite_of r) a b →
  is_Some (get_node_by_id r a) → is_Some (get_node_by_id r b).
Proof.
  intros Hab Ha. destruct (rtc_inv_r _ _ Hab) as [->|(c & _ & Hcb)]; [done|].
  destruct Hcb as (node & Hb & _). by exists node.
Qed.

Lemma traversal_inv_initial r : traversal_inv r ∅ (MkPathState [] ∅).
Proof.
  split; simpl.
  - set_solver.
  - intros i Hi. by apply elem_of_nil in Hi.
  - apply NoDup_nil_2.
  - apply Forall_nil_2.
  - intros n p Hn. by apply elem_of_nil in Hn.
Qed.

Lemma traversal_visited_mono r stack st st' new :
  traversal_inv r stack st → traversal_inv r stack st' →
  path st' = path st ++ new → visited st ⊆ visited st'.
Proof.
  intros [HV _ _ _ _] [HV' _ _ _ _] Hnew.
  rewrite HV, HV', Hnew, fmap_app, list_to_set_app_L. set_solver.
Qed.

Section build_path_traversal.
Context (r : RoadmapRepository).
Hypothesis Hwf : repository_wf r.

Lemma traversal_inv_enter stack st x :
  traversal_inv r stack st → x ∉ visited st →
  traversal_inv r (stack ∪ {[x]})
                (MkPathState (path st) (visited st ∪ {[x]})).
Proof.
  intros [HV Hdis Hnd Hst Hcl] Hx. split; simpl; try done.
  - rewrite HV. set_solver.
  - intros i Hi. rewrite HV in Hx. specialize (Hdis i Hi). set_solver.
  - intros n p Hn Hp Hs. apply elem_of_union. left. by eapply Hcl.
Qed.

Lemma traversal_inv_leave stack st x node :
  get_node_by_id r x = Some node → x ∉ stack →
  traversal_inv r (stack ∪ {[x]}) st →
  (∀ p, p ∈ Node.prerequisites node → is_Some (get_node_by_id r p) →
        p ∈ visited st) →
  traversal_inv r stack (MkPathState (path st ++ [node]) (visited st)).
Proof using Hwf.
  intros Hget Hx [HV Hdis Hnd Hst Hcl] Hpre.
  pose proof (get_node_by_id_id r Hwf x node Hget) as Hid.
  split; simpl.
  - rewrite HV, fmap_app, list_to_set_app_L. simpl. rewrite Hid.
    set_solver.
  - rewrite fmap_app. simpl. rewrite Hid.
    intros i [Hi| ->%list_elem_of_singleton]%elem_of_app; [|done].
    specialize (Hdis i Hi). set_solver.
  - rewrite fmap_app. simpl. rewrite Hid. apply NoDup_app.
    split_and!; [done | | apply NoDup_singleton].
    intros i Hi ->%list_elem_of_singleton.
    specialize (Hdis x Hi). set_solver.
  - apply Forall_app. split; [done|].
    apply Forall_singleton. by rewrite Hid.
  - intros n p [Hn| ->%list_elem_of_singleton]%elem_of_app Hp Hs.
    + by eapply Hcl.
    + by apply Hpre.
Qed.

Lemma for_each_build_path_traversal (depth : nat) (l : list string) :
  (∀ x st st' stack,
     build_path r depth x st = Some st' →
     traversal_inv r stack st → traversal_post r stack x st st') →
  ∀ st st' stack,
    for_each (build_path r depth) l st = Some st' →
    traversal_inv r stack st →
    traversal_inv r stack st' ∧
    (∃ new, path st' = path st ++ new ∧
       ∀ n, n ∈ new → ∃ p, p ∈ l ∧ rtc (prerequisite_of r) (Node.id n) p) ∧
    (∀ p, p ∈ l → is_Some (get_node_by_id r p) → p ∈ visited st').
Proof.
  intros Hcall. induction l as [|x l IH]; intros st st' stack; simpl.
  - intros [= <-] Hinv. split_and!; [done | | ].
    + exists []. split; [by rewrite app_nil_r|].
      intros n Hn. by apply elem_of_nil in Hn.
    + intros p Hp. by apply elem_of_nil in Hp.
  - destruct (build_path r depth x st) as [st1|] eqn:Hx; [|done].
    intros Hrest Hinv.
    destruct (Hcall x st st1 stack Hx Hinv)
      as (Hinv1 & (n1 & Hn1 & Hr1) & Hx1 & _).
    destruct (IH st1 st' stack Hrest Hinv1)
      as (Hinv' & (n2 & Hn2 & Hr2) & Hl).
    split_and!; [done | | ].
    + exists (n1 ++ n2). split; [by rewrite Hn2, Hn1, app_assoc|].
      intros n [Hn|Hn]%elem_of_app.
      * exists x. split; [apply list_elem_of_here | by apply Hr1].
      * destruct (Hr2 n Hn) as (p & Hp & Hnp).
        exists p. split; [by apply list_elem_of_further | done].
    + intros p [->|Hp]%elem_of_cons Hs; [|by apply Hl].
      by apply (traversal_visited_mono r stack st1 st' n2 Hinv1 Hinv' Hn2),
               Hx1.
Qed.

Lemma build_path_traversal (depth : nat) :
  ∀ x st st' stack,
    build_path r depth x st = Some st' →
    traversal_inv r stack st → traversal_post r stack x st st'.
Proof using Hwf.
  induction depth as [|depth IH]; intros x st st' stack; [done|].
  simpl. intros Hrun Hinv.
  destruct (decide (x ∈ visited st)) as [Hvis|Hvis].
  { injection Hrun as <-. split_and!; [done | | done | done].
    exists []. split; [by rewrite app_nil_r|].
    intros n Hn. by apply elem_of_nil in Hn. }
  destruct (get_node_by_id r x) as [node|] eqn:Hget.
  2:{ injection Hrun as <-. split_and!; [done | | | ].
      - exists []. split; [by rewrite app_nil_r|].
        intros n Hn. by apply elem_of_nil in Hn.
      - rewrite Hget. by intros [? ?].
      - intros _ node. by rewrite Hget. }
  set (st1 := MkPathState (path st) (visited st ∪ {[x]})) in Hrun.
  destruct (for_each (build_path r depth) (Node.prerequisites node) st1)
    as [st2|] eqn:Hloop; [|done].
  injection Hrun as <-.
  assert (x ∉ stack) as Hx.
  { rewrite (tv_visited _ _ _ Hinv) in Hvis. set_solver. }
  pose proof (get_node_by_id_id r Hwf x node Hget) as Hid.
  destruct (for_each_build_path_traversal depth (Node.prerequisites node) IH
              st1 st2 (stack ∪ {[x]}) Hloop)
    as (Hinv2 & (new & Hnew & Hreach) & Hpre).
  { by apply traversal_inv_enter. }
  assert (traversal_inv r stack
            (MkPathState (path st2 ++ [node]) (visited st2))) as Hinv'.
  { by eapply traversal_inv_leave. }
  split_and!; simpl.
  - exact Hinv'.
  - exists (new ++ [node]). split; [rewrite Hnew; simpl; by rewrite app_assoc|].
    intros n [Hn| ->%list_elem_of_singleton]%elem_of_app.
    + destruct (Hreach n Hn) as (p & Hp & Hnp).
      eapply rtc_r; [exact Hnp|]. exists node. split_and!; [done | done |].
      eapply prerequisite_of_rtc_stored; [exact Hnp|].
      assert (n ∈ path st2) as Hin
        by (rewrite Hnew; apply elem_of_app; by right).
      pose proof (proj1 (Forall_forall _ _) (tv_stored _ _ _ Hinv2) n Hin)
        as Hsn.
      simpl in Hsn. by exists n.
    + by rewrite Hid.
  - intros _. rewrite (tv_visited _ _ _ Hinv2). set_solver.
  - intros _ node' Hnode'. rewrite Hget in Hnode'.
    injection Hnode' as <-. by exists (path st2).
Qed.
End build_path_traversal.

(** What the traversal gives at the top level, in any store. *)
Lemma get_learning_path_traversal (s : RoadmapService) (target_id : string)
    (target : LearningNode) :
  repository_wf (_repository s) →
  get_node_by_id (_repository s) target_id = Some target →
  ∃ P, get_learning_path s target_id = Some (P ++ [target]) ∧
    NoDup (Node.id <$> P ++ [target]) ∧
    (∀ n, n ∈ P ++ [target] →
          get_node_by_id (_repository s) (Node.id n) = Some n) ∧
    (∀ n, n ∈ P ++ [target] →
          rtc (prerequisite_of (_repository s)) (Node.id n) target_id) ∧
    (∀ n p, n ∈ P ++ [target] → p ∈ Node.prerequisites n →
            is_Some (get_node_by_id (_repository s) p) →
            p ∈ Node.id <$> P ++ [target]).
Proof.
  intros Hwf Hget. set (r := _repository s) in *.
  unfold get_learning_path. fold r. rewrite Hget.
  set (depth := S (length (_nodes r))).
  destruct (build_path_returns r depth target_id (MkPathState [] ∅))
    as (st' & Hrun & _).
  { simpl. pose proof (unvisited_empty r). subst depth. lia. }
  rewrite Hrun. simpl.
  destruct (build_path_traversal r Hwf depth target_id
              (MkPathState [] ∅) st' ∅ Hrun (traversal_inv_initial r))
    as ([HV _ Hnd Hst Hcl] & (new & Hnew & Hreach) & _ & Hlast).
  destruct (Hlast (not_elem_of_empty _) target Hget) as [P HP].
  simpl in Hnew. subst new. rewrite HP in *.
  exists P. split_and!; [done | done | by apply Forall_forall | done |].
  intros n p Hn Hp Hs. pose proof (Hcl n p Hn Hp Hs) as Hin.
  rewrite HV in Hin. set_solver.
Qed.

Lemma cyclic_repository_wf : repository_wf (_repository cyclic_service).
Proof. repeat apply add_node_wf. apply new_RoadmapRepository_wf. Qed.

(** X6: the shape of the learning path does not depend on the absence of
    cycles.  For every stored id the path is returned, ends with the node of
    that id, has no id twice and consists of stored nodes. *)
Theorem get_learning_path_any_graph (s : RoadmapService)
    (target_id : string) :
  repository_wf (_repository s) →
  is_Some (get_node_by_id (_repository s) target_id) →
  ∃ nodes target,
    get_learning_path s target_id = Some nodes ∧
    get_node_by_id (_repository s) target_id = Some target ∧
    last nodes = Some target ∧
    NoDup (Node.id <$> nodes) ∧
    ∀ n, n ∈ nodes → get_node_by_id (_repository s) (Node.id n) = Some n.
Proof.
  intros Hwf [target Hget].
  destruct (get_learning_path_traversal s target_id target Hwf Hget)
    as (P & Hpath & Hnd & Hst & _).
  exists (P ++ [target]), target.
  split_and!; [done | done | apply last_snoc | done | done].
Qed.

Lemma get_learning_path_any_graph_witness :
  repository_wf (_repository cyclic_service) ∧
  is_Some (get_node_by_id (_repository cyclic_service) "a") ∧
  ∃ nodes target,
    get_learning_path cyclic_service "a" = Some nodes ∧
    get_node_by_id (_repository cyclic_service) "a" = Some target ∧
    last nodes = Some target ∧
    NoDup (Node.id <$> nodes) ∧
    ∀ n, n ∈ nodes →
         get_node_by_id (_repository cyclic_service) (Node.id n) = Some n.
Proof.
  pose proof cyclic_repository_wf as Hwf.
  assert (is_Some (get_node_by_id (_repository cyclic_service) "a")) as Hs.
  { apply (bool_decide_unpack _). vm_compute. reflexivity. }
  split_and!; [exact Hwf | exact Hs |].
  exact (get_learning_path_any_graph cyclic_service "a" Hwf Hs).
Defined.

(** X7: the ids of the learning path of a stored id are exactly the id itself
    and its prerequisites, direct or through other stored nodes; this holds
    with or without cycles. *)
Theorem get_learning_path_ancestors (s : RoadmapService)
    (target_id : string) :
  repository_wf (_repository s) →
  is_Some (get_node_by_id (_repository s) target_id) →
  ∃ nodes,
    get_learning_path s target_id = Some nodes ∧
    ∀ x, x ∈ Node.id <$> nodes ↔
         rtc (prerequisite_of (_repository s)) x target_id.
Proof.
  intros Hwf [target Hget]. set (r := _repository s) in *.
  destruct (get_learning_path_traversal s target_id target Hwf Hget)
    as (P & Hpath & _ & Hst & Hreach & Hcl). fold r in Hst, Hreach, Hcl.
  exists (P ++ [target]). split; [done|]. intros x. split.
  - intros (n & -> & Hn)%list_elem_of_fmap. by apply Hreach.
  - revert x. apply rtc_ind_l.
    + apply list_elem_of_fmap. exists target. split.
      * symmetry. by apply (get_node_by_id_id r Hwf).
      * apply elem_of_app. right. apply list_elem_of_here.
    + intros x y (node & Hy & Hx & Hsx) _ (n & -> & Hn)%list_elem_of_fmap.
      rewrite (Hst n Hn) in Hy. injection Hy as <-. by eapply Hcl.
Qed.

Lemma get_learning_path_ancestors_witness :
  repository_wf (_repository diamond_service) ∧
  is_Some (get_node_by_id (_repository diamond_service) "d") ∧
  ∃ nodes,
    get_learning_path diamond_service "d" = Some nodes ∧
    ∀ x, x ∈ Node.id <$> nodes ↔
         rtc (prerequisite_of (_repository diamond_service)) x "d".
Proof.
  pose proof diamond_repository_wf as Hwf.
  assert (is_Some (get_node_by_id (_repository diamond_service) "d")) as Hs.
  { apply (bool_decide_unpack _). vm_compute. reflexivity. }
  split_and!; [exact Hwf | exact Hs |].
  exact (get_learning_path_ancestors diamond_service "d" Hwf Hs).
Defined.

(** X8: the direct prerequisites that [get_prerequisites] returns for an id
    are all nodes of the learning path of that id. *)
Theorem get_prerequisites_in_learning_path (s : RoadmapService)
    (node_id : string) :
  repository_wf (_repository s) →
  ∃ nodes,
    get_learning_path s node_id = Some nodes ∧
    ∀ m, m ∈ get_prerequisites s node_id → m ∈ nodes.
Proof.
  intros Hwf. set (r := _repository s) in *.
  destruct (get_node_by_id r node_id) as [node|] eqn:Hget.
  - destruct (get_learning_path_traversal s node_id node Hwf Hget)
      as (P & Hpath & _ & Hst & _ & Hcl). fold r in Hst, Hcl.
    exists (P ++ [node]). split; [done|]. intros m.
    unfold get_prerequisites. fold r. rewrite Hget.
    rewrite fold_left_append_omap. simpl.
    intros (p & Hp & Hm)%list_elem_of_omap.
    assert (p ∈ Node.id <$> P ++ [node]) as Hin.
    { apply (Hcl node p); [|done|by exists m].
      apply elem_of_app. right. apply list_elem_of_here. }
    apply list_elem_of_fmap in Hin as (m' & -> & Hm').
    rewrite (Hst m' Hm') in Hm. by injection Hm as <-.
  - exists []. split.
    + unfold get_learning_path. fold r. by rewrite Hget.
    + unfold get_prerequisites. fold r. by rewrite Hget.
Qed.

Lemma get_prerequisites_in_learning_path_witness :
  repository_wf (_repository default_service) ∧
  ∃ nodes,
    get_learning_path default_service "security" = Some nodes ∧
    ∀ m, m ∈ get_prerequisites default_service "security" → m ∈ nodes.
Proof.
  pose proof default_repository_wf as Hwf.
  split; [exact Hwf|].
  exact (get_prerequisites_in_learning_path default_service "security" Hwf).
Defined.

Lemma build_path_S r (depth : nat) (x : string) (st : PathState) :
  build_path r (S depth) x st =
  if decide (x ∈ visited st) then Some st
  else match get_node_by_id r x with
       | None => Some st
       | Some node =>
           match for_each (build_path r depth) (Node.prerequisites node)
                   (MkPathState (path st) (visited st ∪ {[x]})) with
           | Some st' => Some (MkPathState (path st' ++ [node]) (visited st'))
           | None => None
           end
       end.
Proof. reflexivity. Qed.

Lemma for_each_build_path_not_stored r (depth : nat) (l : list string)
    (st : PathState) :
  (∀ p, p ∈ l → get_node_by_id r p = None) →
  for_each (build_path r (S depth)) l st = Some st.
Proof.
  induction l as [|p l IH]; intros Hl; [done|].
  assert (for_each (build_path r (S depth)) l st = Some st) as Hrest.
  { apply IH. intros q Hq. by apply Hl, list_elem_of_further. }
  cbn [for_each]. rewrite build_path_S.
  rewrite (Hl p) by apply list_elem_of_here.
  by destruct (decide (p ∈ visited st)).
Qed.

(** X9: the learning path of a stored node none of whose listed
    prerequisites is stored (in particular of a node that lists none) is
    that node alone. *)
Theorem get_learning_path_no_stored_prerequisite (s : RoadmapService)
    (node_id : string) (node : LearningNode) :
  get_node_by_id (_repository s) node_id = Some node →
  (∀ p, p ∈ Node.prerequisites node →
        get_node_by_id (_repository s) p = None) →
  get_learning_path s node_id = Some [node].
Proof.
  intros Hget Hnone. unfold get_learning_path. rewrite Hget.
  destruct (_nodes (_repository s)) as [|kv d] eqn:Hd.
  { unfold get_node_by_id in Hget. by rewrite Hd in Hget. }
  cbn [length]. rewrite build_path_S. cbn [visited path].
  rewrite decide_False by apply not_elem_of_empty. rewrite Hget.
  by rewrite for_each_build_path_not_stored.
Qed.

Lemma get_learning_path_no_stored_prerequisite_witness :
  let node := Node.Raw "solo" "Solo" "n/a" TOPIC [] ["ghost"; "phantom"] 4 []
  in
  let s := Service (add_node default_repository node) in
  get_node_by_id (_repository s) "solo" = Some node ∧
  (∀ p, p ∈ Node.prerequisites node →
        get_node_by_id (_repository s) p = None) ∧
  get_learning_path s "solo" = Some [node].
Proof.
  intros node s.
  assert (get_node_by_id (_repository s) "solo" = Some node) as Hget
    by (vm_compute; reflexivity).
  assert (∀ p, p ∈ Node.prerequisites node →
               get_node_by_id (_repository s) p = None) as Hnone.
  { apply Forall_forall. apply (bool_decide_unpack _). vm_compute.
    reflexivity. }
  split_and!; [exact Hget | exact Hnone |].
  exact (get_learning_path_no_stored_prerequisite s "solo" node Hget Hnone).
Defined.

(** ** Remaining hours and recommendations as the completed list changes *)

Lemma get_next_recommended_topics_filter (s : RoadmapService)
    (completed_ids : list string) :
  get_next_recommended_topics s completed_ids
  = filter (recommendable completed_ids) (get_all_nodes (_repository s)).
Proof.
  unfold get_next_recommended_topics.
  rewrite (fold_left_append_filter (recommendable completed_ids)); [done|].
  intros acc node. unfold recommendable.
  pose proof (prerequisites_met_Forall completed_ids node) as Hmet.
  pose proof (not_start_end_TOPIC (Node.node_type node)) as Hkind.
  pose proof (elem_of_list_to_set (C:=gset string)
                (Node.id node) completed_ids) as Hin.
  destruct (prerequisites_met _ node);
    repeat case_decide; try done; exfalso; intuition congruence.
Qed.

Lemma filter_sublist_impl {A} (P Q : A → Prop) `{!∀ x, Decision (P x)}
    `{!∀ x, Decision (Q x)} (l : list A) :
  (∀ x, x ∈ l → P x → Q x) → filter P l `sublist_of` filter Q l.
Proof.
  induction l as [|x l IH]; intros HPQ; [done|].
  assert (filter P l `sublist_of` filter Q l) as Hl.
  { apply IH. intros y Hy. by apply HPQ, list_elem_of_further. }
  rewrite !filter_cons. destruct (decide (P x)) as [HP|HP].
  - rewrite decide_True by (apply HPQ; [apply list_elem_of_here | done]).
    by apply sublist_skip.
  - destruct (decide (Q x)); [by apply sublist_cons | done].
Qed.

Lemma Zsum_filter_nonneg {A} (f : A → Z) (P : A → Prop)
    `{!∀ x, Decision (P x)} (l : list A) :
  (∀ x, x ∈ l → 0 ≤ f x) → 0 ≤ Zsum (f <$> filter P l).
Proof.
  unfold Zsum. induction l as [|x l IH]; intros Hf; [done|].
  assert (0 ≤ foldr Z.add 0 (f <$> filter P l)) as Hl.
  { apply IH. intros y Hy. by apply Hf, list_elem_of_further. }
  pose proof (Hf x (list_elem_of_here _ _)).
  rewrite filter_cons. destruct (decide (P x)); csimpl; lia.
Qed.

Lemma Zsum_filter_mono {A} (f : A → Z) (P Q : A → Prop)
    `{!∀ x, Decision (P x)} `{!∀ x, Decision (Q x)} (l : list A) :
  (∀ x, x ∈ l → 0 ≤ f x) → (∀ x, x ∈ l → P x → Q x) →
  Zsum (f <$> filter P l) ≤ Zsum (f <$> filter Q l).
Proof.
  unfold Zsum. induction l as [|x l IH]; intros Hf HPQ; [done|].
  assert (foldr Z.add 0 (f <$> filter P l)
          ≤ foldr Z.add 0 (f <$> filter Q l)) as Hl.
  { apply IH; intros y Hy; [by apply Hf, list_elem_of_further|].
    by apply HPQ, list_elem_of_further. }
  pose proof (Hf x (list_elem_of_here _ _)).
  pose proof (HPQ x (list_elem_of_here _ _)).
  rewrite !filter_cons.
  destruct (decide (P x)), (decide (Q x)); csimpl; try lia; tauto.
Qed.

Lemma filter_all {A} (P : A → Prop) `{!∀ x, Decision (P x)} (l : list A) :
  (∀ x, x ∈ l → P x) → filter P l = l.
Proof.
  induction l as [|x l IH]; intros HP; [done|].
  rewrite filter_cons, decide_True by apply HP, list_elem_of_here.
  f_equal. apply IH. intros y Hy. by apply HP, list_elem_of_further.
Qed.

Lemma filter_none {A} (P : A → Prop) `{!∀ x, Decision (P x)} (l : list A) :
  (∀ x, x ∈ l → ¬ P x) → filter P l = [].
Proof.
  induction l as [|x l IH]; intros HP; [done|].
  rewrite filter_cons, decide_False by apply HP, list_elem_of_here.
  apply IH. intros y Hy. by apply HP, list_elem_of_further.
Qed.

Lemma filter_ext_in {A} (P Q : A → Prop) `{!∀ x, Decision (P x)}
    `{!∀ x, Decision (Q x)} (l : list A) :
  (∀ x, x ∈ l → (P x ↔ Q x)) → filter P l = filter Q l.
Proof.
  induction l as [|x l IH]; intros HPQ; [done|].
  assert (filter P l = filter Q l) as Hl.
  { apply IH. intros y Hy. by apply HPQ, list_elem_of_further. }
  pose proof (HPQ x (list_elem_of_here _ _)).
  rewrite !filter_cons, Hl.
  destruct (decide (P x)), (decide (Q x)); try done; tauto.
Qed.

(** X10: with nothing completed, the remaining hours are the total of the
    overview, and the recommended nodes are the stored TOPIC nodes that list
    no prerequisite, in the order of the store. *)
Theorem nothing_completed (s : RoadmapService) :
  calculate_remaining_hours s []
    = estimated_total_hours (get_roadmap_overview s) ∧
  get_next_recommended_topics s []
    = filter (λ n, Node.node_type n = TOPIC ∧ Node.prerequisites n = [])
             (get_all_nodes (_repository s)).
Proof.
  split.
  - rewrite calculate_remaining_hours_Zsum. unfold get_roadmap_overview.
    simpl. rewrite py_sum_Zsum, filter_all; [done|].
    intros n _. apply not_elem_of_nil.
  - rewrite get_next_recommended_topics_filter. apply list_filter_iff.
    intros n. unfold recommendable. split.
    + intros (_ & Hk & Hp). split; [done|].
      destruct (Node.prerequisites n) as [|p ps]; [done|].
      apply Forall_cons in Hp as [Hp _]. by apply elem_of_nil in Hp.
    + intros [Hk Hp]. split_and!; [apply not_elem_of_nil | done |].
      rewrite Hp. apply Forall_nil_2.
Qed.

(** X11: once the id of every stored node is in the completed list, no hours
    remain and nothing is recommended. *)
Theorem everything_completed (s : RoadmapService)
    (completed_ids : list string) :
  (∀ n, n ∈ get_all_nodes (_repository s) → Node.id n ∈ completed_ids) →
  calculate_remaining_hours s completed_ids = 0 ∧
  get_next_recommended_topics s completed_ids = [].
Proof.
  intros Hall. split.
  - rewrite calculate_remaining_hours_Zsum, filter_none; [done|].
    intros n Hn Hnot. by apply Hnot, Hall.
  - rewrite get_next_recommended_topics_filter. apply filter_none.
    intros n Hn (Hnot & _). by apply Hnot, Hall.
Qed.

Lemma everything_completed_witness :
  let completed_ids := "extra" :: dict_keys (_nodes default_repository) in
  (∀ n, n ∈ get_all_nodes (_repository default_service) →
        Node.id n ∈ completed_ids) ∧
  calculate_remaining_hours default_service completed_ids = 0 ∧
  get_next_recommended_topics default_service completed_ids = [].
Proof.
  intros completed_ids.
  assert (∀ n, n ∈ get_all_nodes (_repository default_service) →
               Node.id n ∈ completed_ids) as Hall.
  { apply Forall_forall. apply (bool_decide_unpack _). vm_compute.
    reflexivity. }
  split; [exact Hall|].
  exact (everything_completed default_service completed_ids Hall).
Defined.

(** X12: when no stored node has negative hours, the remaining hours lie
    between 0 and the total of the overview, and completing more ids never
    increases them. *)
Theorem calculate_remaining_hours_monotone (s : RoadmapService)
    (completed1 completed2 : list string) :
  (∀ n, n ∈ get_all_nodes (_repository s) → 0 ≤ Node.estimated_hours n) →
  (∀ x, x ∈ completed1 → x ∈ completed2) →
  0 ≤ calculate_remaining_hours s completed2 ∧
  calculate_remaining_hours s completed2
    ≤ calculate_remaining_hours s completed1 ∧
  calculate_remaining_hours s completed1
    ≤ estimated_total_hours (get_roadmap_overview s).
Proof.
  intros Hpos Hsub. rewrite !calculate_remaining_hours_Zsum.
  unfold get_roadmap_overview. simpl. rewrite py_sum_Zsum.
  set (nodes := get_all_nodes (_repository s)) in *. split_and!.
  - by apply Zsum_filter_nonneg.
  - apply Zsum_filter_mono; [done|]. intros n _ Hn Hin. by apply Hn, Hsub.
  - rewrite <-(filter_all (λ _, True) nodes) at 2 by done.
    by apply Zsum_filter_mono.
Qed.

Lemma calculate_remaining_hours_monotone_witness :
  let c1 := ["llm-apis"] in
  let c2 := ["start"; "llm-apis"; "security"] in
  (∀ n, n ∈ get_all_nodes (_repository default_service) →
        0 ≤ Node.estimated_hours n) ∧
  (∀ x, x ∈ c1 → x ∈ c2) ∧
  0 ≤ calculate_remaining_hours default_service c2 ∧
  calculate_remaining_hours default_service c2
    ≤ calculate_remaining_hours default_service c1 ∧
  calculate_remaining_hours default_service c1
    ≤ estimated_total_hours (get_roadmap_overview default_service).
Proof.
  intros c1 c2.
  assert (∀ n, n ∈ get_all_nodes (_repository default_service) →
               0 ≤ Node.estimated_hours n) as Hpos.
  { apply Forall_forall. apply (bool_decide_unpack _). vm_compute.
    reflexivity. }
  assert (∀ x, x ∈ c1 → x ∈ c2) as Hsub.
  { apply Forall_forall. apply (bool_decide_unpack _). vm_compute.
    reflexivity. }
  split_and!; [exact Hpos | exact Hsub | ..];
    apply (calculate_remaining_hours_monotone default_service c1 c2
             Hpos Hsub).
Defined.

(** Negative hours are not rejected by the constructor, and the bound fails
    for them. *)
Example calculate_remaining_hours_negative :
  let node := Node.Raw "debt" "Debt" "n/a" TOPIC [] [] (-10) [] in
  let s := Service (add_node new_RoadmapRepository node) in
  calculate_remaining_hours s [] = -10 ∧
  calculate_remaining_hours s ["debt"] = 0.
Proof. vm_compute. done. Qed.

(** X13: the remaining hours depend on the completed list only through the
    stored ids it contains: ids that are not stored make no difference. *)
Theorem calculate_remaining_hours_stored_ids (s : RoadmapService)
    (completed1 completed2 : list string) :
  repository_wf (_repository s) →
  (∀ x, is_Some (get_node_by_id (_repository s) x) →
        (x ∈ completed1 ↔ x ∈ completed2)) →
  calculate_remaining_hours s completed1
    = calculate_remaining_hours s completed2.
Proof.
  intros Hwf Hsame. rewrite !calculate_remaining_hours_Zsum. f_equal. f_equal.
  apply filter_ext_in. intros n Hn.
  assert (is_Some (get_node_by_id (_repository s) (Node.id n))) as Hs.
  { exists n. by apply get_all_nodes_get. }
  specialize (Hsame _ Hs). tauto.
Qed.

Lemma calculate_remaining_hours_stored_ids_witness :
  let c1 := ["start"; "llm-apis"] in
  let c2 := ["unknown"; "llm-apis"; "start"; "typo"] in
  repository_wf (_repository default_service) ∧
  (∀ x, is_Some (get_node_by_id (_repository default_service) x) →
        (x ∈ c1 ↔ x ∈ c2)) ∧
  calculate_remaining_hours default_service c1
    = calculate_remaining_hours default_service c2.
Proof.
  intros c1 c2. pose proof default_repository_wf as Hwf.
  assert (∀ x, is_Some (get_node_by_id (_repository default_service) x) →
               (x ∈ c1 ↔ x ∈ c2)) as Hsame.
  { intros x Hx. subst c1 c2. rewrite !elem_of_cons.
    assert (x ≠ "unknown" ∧ x ≠ "typo") as [? ?].
    { split; intros ->; revert Hx; by vm_compute; intros [? ?]. }
    tauto. }
  split_and!; [exact Hwf | exact Hsame |].
  exact (calculate_remaining_hours_stored_ids default_service c1 c2
           Hwf Hsame).
Defined.

(** X14: completing one more id takes the nodes of that id out of the
    recommendations and keeps every other recommended node, in the same
    order. *)
Theorem get_next_recommended_topics_after_completion (s : RoadmapService)
    (completed_ids : list string) (x : string) :
  filter (λ n, Node.id n ≠ x) (get_next_recommended_topics s completed_ids)
    `sublist_of` get_next_recommended_topics s (completed_ids ++ [x]) ∧
  Forall (λ n, Node.id n ≠ x)
         (get_next_recommended_topics s (completed_ids ++ [x])).
Proof.
  rewrite !get_next_recommended_topics_filter. split.
  - rewrite list_filter_filter. apply filter_sublist_impl.
    intros n _ (Hne & Hnot & Hk & Hp). split_and!; [|done|].
    + rewrite elem_of_app, list_elem_of_singleton. tauto.
    + eapply Forall_impl; [exact Hp|]. intros p Hin. simpl.
      apply elem_of_app. by left.
  - apply Forall_forall. intros n (Hrec & _)%list_elem_of_filter Heq.
    destruct Hrec as (Hnot & _). apply Hnot.
    rewrite elem_of_app, list_elem_of_singleton. by right.
Qed.

(** ** The recommender never gets stuck *)

Lemma get_learning_path_ordered (s : RoadmapService) (target_id : string)
    (target : LearningNode) :
  repository_wf (_repository s) → acyclic (_repository s) →
  get_node_by_id (_repository s) target_id = Some target →
  ∃ P, get_learning_path s target_id = Some (P ++ [target]) ∧
    (∀ n, n ∈ P ++ [target] →
          get_node_by_id (_repository s) (Node.id n) = Some n) ∧
    prerequisites_earlier (_repository s) (P ++ [target]).
Proof.
  intros Hwf Hacyclic Hget. set (r := _repository s) in *.
  unfold get_learning_path. fold r. rewrite Hget.
  set (depth := S (length (_nodes r))).
  destruct (build_path_returns r depth target_id (MkPathState [] ∅))
    as (st' & Hrun & _).
  { simpl. pose proof (unvisited_empty r). subst depth. lia. }
  rewrite Hrun. simpl.
  destruct (build_path_inv r Hwf Hacyclic depth target_id
              (MkPathState [] ∅) st' ∅ Hrun)
    as ([_ _ _ Hst Hord] & _ & _ & Hlast).
  - apply dfs_inv_initial.
  - intros _ g Hg. by apply not_elem_of_empty in Hg.
  - destruct (Hlast (not_elem_of_empty _) target Hget) as [P HP].
    rewrite HP in *. exists P.
    split_and!; [done | by apply Forall_forall | done].
Qed.

(** X15: in a consistent store without cycles, let every listed prerequisite
    be completed already or be the id of a stored TOPIC node.  Then, as long
    as some stored TOPIC node is not completed, at least one node is
    recommended. *)
Theorem get_next_recommended_topics_progress (s : RoadmapService)
    (completed_ids : list string) (todo : LearningNode) :
  repository_wf (_repository s) →
  acyclic (_repository s) →
  (∀ n p, n ∈ get_all_nodes (_repository s) → p ∈ Node.prerequisites n →
     p ∈ completed_ids ∨
     ∃ m, get_node_by_id (_repository s) p = Some m
          ∧ Node.node_type m = TOPIC) →
  todo ∈ get_all_nodes (_repository s) →
  Node.node_type todo = TOPIC →
  Node.id todo ∉ completed_ids →
  get_next_recommended_topics s completed_ids ≠ [].
Proof.
  intros Hwf Hacyclic Hpre Htodo Hkind Hnot. set (r := _repository s) in *.
  pose proof (get_all_nodes_get r Hwf todo Htodo) as Hget.
  destruct (get_learning_path_ordered s (Node.id todo) todo Hwf Hacyclic Hget)
    as (P & _ & Hst & Hord). fold r in Hst, Hord.
  set (open := λ n : LearningNode,
         Node.node_type n = TOPIC ∧ Node.id n ∉ completed_ids).
  destruct (list_find_elem_of open (P ++ [todo]) todo) as [[i n] Hfind].
  { apply elem_of_app. right. apply list_elem_of_here. }
  { by split. }
  apply list_find_Some in Hfind as (Hi & [Hnk Hnn] & Hfirst).
  assert (n ∈ P ++ [todo]) as Hn by (apply list_elem_of_lookup; eauto).
  assert (n ∈ get_next_recommended_topics s completed_ids) as Hrec.
  { rewrite get_next_recommended_topics_filter. apply list_elem_of_filter.
    split; [|by eapply get_node_by_id_stored, Hst].
    split_and!; [done | done |]. apply Forall_forall. intros p Hp.
    destruct (Hpre n p) as [Hdone|(m & Hm & Hmk)];
      [by eapply get_node_by_id_stored, Hst | done | done |].
    destruct (Hord i n p Hi Hp) as (j & m' & Hj & Hm' & Hid);
      [by exists m|].
    assert (m' = m) as ->.
    { assert (m' ∈ P ++ [todo]) as Hin by (apply list_elem_of_lookup; eauto).
      pose proof (Hst m' Hin) as Hsm. rewrite Hid, Hm in Hsm.
      by injection Hsm. }
    destruct (decide (p ∈ completed_ids)) as [|Hopen]; [done|].
    destruct (Hfirst j m Hm' Hj). split; [done | by rewrite Hid]. }
  intros Hnil. rewrite Hnil in Hrec. by apply elem_of_nil in Hrec.
Qed.

Lemma get_next_recommended_topics_progress_witness :
  let completed_ids := ["start"; "llm-apis"; "storage-retrieval"] in
  ∃ todo,
    repository_wf (_repository default_service) ∧
    acyclic (_repository default_service) ∧
    (∀ n p, n ∈ get_all_nodes (_repository default_service) →
       p ∈ Node.prerequisites n →
       p ∈ completed_ids ∨
       ∃ m, get_node_by_id (_repository default_service) p = Some m
            ∧ Node.node_type m = TOPIC) ∧
    todo ∈ get_all_nodes (_repository default_service) ∧
    Node.node_type todo = TOPIC ∧
    (Node.id todo ∉ completed_ids) ∧
    get_next_recommended_topics default_service completed_ids ≠ [].
Proof.
  intros completed_ids.
  destruct (get_node_by_id default_repository "security") as [todo|] eqn:Hget;
    [|by vm_compute in Hget].
  exists todo.
  pose proof default_repository_wf as Hwf.
  pose proof default_repository_acyclic as Hacyclic.
  assert (∀ n p, n ∈ get_all_nodes (_repository default_service) →
     p ∈ Node.prerequisites n →
     p ∈ completed_ids ∨
     ∃ m, get_node_by_id (_repository default_service) p = Some m
          ∧ Node.node_type m = TOPIC) as Hpre.
  { assert (Forall (λ n, Forall (λ p,
              bool_decide (p ∈ completed_ids)
              || from_option (λ m, bool_decide (Node.node_type m = TOPIC))
                   false (get_node_by_id (_repository default_service) p)
              = true)
              (Node.prerequisites n))
              (get_all_nodes (_repository default_service))) as Hall.
    { apply (bool_decide_unpack _). vm_compute. reflexivity. }
    intros n p Hn Hp.
    pose proof (proj1 (Forall_forall _ _)
                  (proj1 (Forall_forall _ _) Hall n Hn) p Hp) as Hnp.
    simpl in Hnp. apply orb_true_iff in Hnp as [Hc|Hm].
    - left. by apply bool_decide_eq_true in Hc.
    - right. destruct (get_node_by_id _ p) as [m|]; [|done].
      exists m. split; [done|]. by apply bool_decide_eq_true in Hm. }
  assert (todo ∈ get_all_nodes (_repository default_service)) as Htodo
    by (by eapply get_node_by_id_stored).
  assert (Node.node_type todo = TOPIC) as Hkind.
  { vm_compute in Hget. by injection Hget as <-. }
  assert (Node.id todo ∉ completed_ids) as Hnot.
  { vm_compute in Hget. injection Hget as <-.
    apply (bool_decide_unpack _). vm_compute. reflexivity. }
  split_and!; [exact Hwf | exact Hacyclic | exact Hpre | exact Htodo
               | exact Hkind | exact Hnot |].
  exact (get_next_recommended_topics_progress default_service completed_ids
           todo Hwf Hacyclic Hpre Htodo Hkind Hnot).
Defined.

(** The hypothesis on the prerequisites matters for the default roadmap:
    [llm-apis] requires [start], a START node, which is never recommended, so
    with an empty completed list nothing is recommended. *)
Example get_next_recommended_topics_needs_start :
  get_next_recommended_topics default_service [] = [] ∧
  (Node.id <$> get_next_recommended_topics default_service ["start"])
    = ["llm-apis"].
Proof. vm_compute. done. Qed.

(** ** The topic choices of the user interface *)

Lemma String_leb_refl (a : string) : String.leb a a = true.
Proof. by destruct (String.leb_total a a). Qed.

Lemma py_sorted_insert_Permutation {A} (key : A → string) x (l : list A) :
  py_sorted_insert key x l ≡ₚ x :: l.
Proof.
  induction l as [|y l IH]; simpl; [done|].
  destruct (String.leb (key x) (key y)); [done|].
  rewrite IH. apply Permutation_swap.
Qed.

Lemma py_sorted_Permutation {A} (key : A → string) (l : list A) :
  py_sorted key l ≡ₚ l.
Proof.
  unfold py_sorted. induction l as [|x l IH]; simpl; [done|].
  by rewrite py_sorted_insert_Permutation, IH.
Qed.

Lemma py_sorted_insert_Sorted {A} (key : A → string) x (l : list A) :
  Sorted (key_le key) l → Sorted (key_le key) (py_sorted_insert key x l).
Proof.
  induction 1 as [|y l Hl IH Hhd]; simpl.
  - by repeat constructor.
  - destruct (String.leb (key x) (key y)) eqn:Hxy.
    + constructor; [by constructor | by constructor].
    + constructor; [done|].
      assert (key_le key y x) as Hyx.
      { unfold key_le. by destruct (String.leb_total (key x) (key y));
          [congruence|]. }
      destruct Hhd as [|z l' Hyz]; simpl; [by constructor|].
      destruct (String.leb (key x) (key z)); by constructor.
Qed.

Lemma py_sorted_Sorted {A} (key : A → string) (l : list A) :
  Sorted (key_le key) (py_sorted key l).
Proof.
  unfold py_sorted. induction l as [|x l IH]; simpl; [constructor|].
  by apply py_sorted_insert_Sorted.
Qed.

Lemma py_sorted_insert_stable {A} (key : A → string) (k : string) x
    (l : list A) :
  filter (λ y, key y = k) (py_sorted_insert key x l)
  = filter (λ y, key y = k) (x :: l).
Proof.
  induction l as [|y l IH]; simpl; [done|].
  destruct (String.leb (key x) (key y)) eqn:Hxy; [done|].
  assert (key x ≠ key y) as Hne.
  { intros Heq. rewrite Heq, String_leb_refl in Hxy. done. }
  rewrite filter_cons, IH, !filter_cons.
  destruct (decide (key y = k)), (decide (key x = k)); congruence.
Qed.

Lemma py_sorted_stable {A} (key : A → string) (k : string) (l : list A) :
  filter (λ y, key y = k) (py_sorted key l) = filter (λ y, key y = k) l.
Proof.
  unfold py_sorted. induction l as [|x l IH]; simpl; [done|].
  by rewrite py_sorted_insert_stable, !filter_cons, IH.
Qed.

Lemma get_topic_choices_py_sorted (ui : GradioUIService) :
  get_topic_choices ui =
  py_sorted fst
    (topic_choice <$> nodes_of_type TOPIC
       (get_all_nodes (_repository (_roadmap_service ui)))).
Proof.
  unfold get_topic_choices. f_equal.
  generalize (get_all_nodes (_repository (_roadmap_service ui))).
  intros nodes.
  assert (∀ acc, fold_left
    (λ choices node,
       if decide (Node.node_type node = TOPIC)
       then choices ++ [(display_name node, Node.id node)]
       else choices) nodes acc
    = acc ++ (topic_choice <$> nodes_of_type TOPIC nodes)) as H.
  { unfold nodes_of_type.
    induction nodes as [|n nodes IH]; intros acc; simpl.
    - by rewrite app_nil_r.
    - rewrite IH, filter_cons.
      destruct (decide (Node.node_type n = TOPIC)); [|done].
      csimpl. by rewrite <-app_assoc. }
  by rewrite H.
Qed.

(** X16: the topic choices are the entries (display name, id) of the stored
    TOPIC nodes, each as often as the store enumerates it, sorted by display
    name in the order of strings; entries with the same display name keep
    the order of the store. *)
Theorem get_topic_choices_sorted (ui : GradioUIService) :
  let entries :=
    topic_choice <$> nodes_of_type TOPIC
      (get_all_nodes (_repository (_roadmap_service ui))) in
  get_topic_choices ui ≡ₚ entries ∧
  Sorted (λ a b, String.leb a.1 b.1 = true) (get_topic_choices ui) ∧
  ∀ name, filter (λ c, c.1 = name) (get_topic_choices ui)
          = filter (λ c, c.1 = name) entries.
Proof.
  intros entries. rewrite get_topic_choices_py_sorted. fold entries.
  split_and!.
  - apply py_sorted_Permutation.
  - apply (py_sorted_Sorted fst).
  - intros name. apply (py_sorted_stable fst).
Qed.

(** X17: in a consistent store, the ids offered by the topic choices are
    exactly the ids of the stored TOPIC nodes, each offered once; the ids of
    START and END nodes are never offered. *)
Theorem get_topic_choices_ids (ui : GradioUIService) :
  repository_wf (_repository (_roadmap_service ui)) →
  NoDup (get_topic_choices ui).*2 ∧
  ∀ i, i ∈ (get_topic_choices ui).*2 ↔
       ∃ n, get_node_by_id (_repository (_roadmap_service ui)) i = Some n
            ∧ Node.node_type n = TOPIC.
Proof.
  intros Hwf. set (r := _repository (_roadmap_service ui)) in *.
  rewrite get_topic_choices_py_sorted. fold r.
  assert ((py_sorted fst (topic_choice <$> nodes_of_type TOPIC
                            (get_all_nodes r))).*2
          ≡ₚ Node.id <$> nodes_of_type TOPIC (get_all_nodes r)) as Hperm.
  { rewrite py_sorted_Permutation, <-list_fmap_compose. done. }
  split.
  - rewrite Hperm. unfold nodes_of_type.
    eapply sublist_NoDup; [apply (get_all_nodes_NoDup_ids r Hwf)|].
    apply fmap_sublist, sublist_filter.
  - intros i. rewrite Hperm. unfold nodes_of_type.
    rewrite list_elem_of_fmap. split.
    + intros (n & -> & [Hk Hn]%list_elem_of_filter).
      exists n. split; [by apply get_all_nodes_get | done].
    + intros (n & Hget & Hk). exists n. split.
      * symmetry. by apply (get_node_by_id_id r Hwf).
      * apply list_elem_of_filter. split; [done|].
        by eapply get_node_by_id_stored.
Qed.

Lemma get_topic_choices_ids_witness :
  let ui := UIService default_service in
  repository_wf (_repository (_roadmap_service ui)) ∧
  NoDup (get_topic_choices ui).*2 ∧
  ∀ i, i ∈ (get_topic_choices ui).*2 ↔
       ∃ n, get_node_by_id (_repository (_roadmap_service ui)) i = Some n
            ∧ Node.node_type n = TOPIC.
Proof.
  intros ui. pose proof default_repository_wf as Hwf.
  split; [exact Hwf|].
  exact (get_topic_choices_ids ui Hwf).
Defined.

Example get_topic_choices_default :
  get_topic_choices (UIService default_service) =
  [("AI Agents (50h)", "ai-agents");
   ("Forward looking elements (20h)", "forward-looking");
   ("Infrastructure (40h)", "infrastructure");
   ("LLM APIs (20h)", "llm-apis");
   ("Model Adaptation (30h)", "model-adaptation");
   ("Observability & Evaluation (30h)", "observability-evaluation");
   ("RAG & Agentic RAG (35h)", "rag-agentic");
   ("Security (25h)", "security");
   ("Storage for Retrieval (25h)", "storage-retrieval")].
Proof. vm_compute. reflexivity. Qed.

(** ** The completed list of the progress tracker *)

Lemma elem_of_add_completed_topic (completed_topics : list string)
    (topic_id x : string) :
  x ∈ add_completed_topic completed_topics topic_id ↔
  x ∈ completed_topics ∨ (x = topic_id ∧ topic_id ≠ EmptyString).
Proof.
  unfold add_completed_topic.
  destruct topic_id as [|a t]; simpl.
  - split; [by left | by intros [?|[_ ?]]].
  - case_bool_decide as Hin; simpl.
    + rewrite elem_of_app, list_elem_of_singleton. split.
      * intros [?| ->]; [by left | by right].
      * intros [?|[-> _]]; [by left | by right].
    + split; [by left|]. by intros [?|[-> _]].
Qed.

Lemma add_completed_topic_NoDup (completed_topics : list string)
    (topic_id : string) :
  NoDup completed_topics →
  NoDup (add_completed_topic completed_topics topic_id).
Proof.
  intros Hnd. unfold add_completed_topic.
  destruct (str_truthy topic_id); simpl; [|done].
  case_bool_decide as Hin; simpl; [|done].
  apply NoDup_app. split_and!; [done | | apply NoDup_singleton].
  by intros x Hx ->%list_elem_of_singleton.
Qed.

Lemma py_list_remove_filter (l : list string) (x : string) :
  NoDup l → x ∈ l → py_list_remove l x = Ok (filter (λ y, y ≠ x) l).
Proof.
  induction 1 as [|y l Hy Hnd IH]; intros Hx.
  - by apply elem_of_nil in Hx.
  - simpl. rewrite filter_cons. destruct (decide (y = x)) as [->|Hne].
    + rewrite decide_False by (by intros ?). f_equal. symmetry.
      apply filter_all. intros z Hz ->. done.
    + rewrite decide_True by done.
      apply elem_of_cons in Hx as [->|Hx]; [done|].
      by rewrite IH.
Qed.

(** X18: marking a topic complete appends its id when the id is not the empty
    string and not yet in the list, and changes nothing otherwise; so the
    list gains at most this id, and marking the same topic again has no
    effect. *)
Theorem add_completed_topic_spec (completed_topics : list string)
    (topic_id : string) :
  add_completed_topic completed_topics topic_id =
    (if decide (topic_id = EmptyString ∨ topic_id ∈ completed_topics)
     then completed_topics else completed_topics ++ [topic_id]) ∧
  (∀ x, x ∈ add_completed_topic completed_topics topic_id ↔
        x ∈ completed_topics ∨ (x = topic_id ∧ topic_id ≠ EmptyString)) ∧
  add_completed_topic (add_completed_topic completed_topics topic_id)
                      topic_id
    = add_completed_topic completed_topics topic_id.
Proof.
  split_and!.
  - unfold add_completed_topic.
    destruct (decide (topic_id = EmptyString ∨ topic_id ∈ completed_topics))
      as [[->|Hin]|Hn].
    + done.
    + rewrite bool_decide_eq_false_2 by (by intros ?).
      by rewrite andb_false_r.
    + rewrite bool_decide_eq_true_2 by (intros ?; apply Hn; by right).
      destruct topic_id; [|done]. destruct Hn. by left.
  - intros x. apply elem_of_add_completed_topic.
  - unfold add_completed_topic at 1.
    destruct (str_truthy topic_id) eqn:Ht; simpl; [|done].
    case_bool_decide as Hin; simpl; [|done].
    destruct Hin. apply elem_of_add_completed_topic. right.
    split; [done|]. by intros ->.
Qed.

Lemma remove_completed_topic_filter (completed_topics : list string)
    (topic_id : string) :
  NoDup completed_topics →
  remove_completed_topic completed_topics topic_id
  = Ok (filter (λ x, x ≠ topic_id) completed_topics).
Proof.
  intros Hnd. unfold remove_completed_topic.
  destruct (decide (topic_id ∈ completed_topics)) as [Hin|Hin].
  - by apply py_list_remove_filter.
  - f_equal. symmetry. apply filter_all. by intros x Hx ->.
Qed.

(** X19: removing a topic never raises.  From a list without repetition it
    removes the id and keeps the other ids in their order; without the id in
    the list it changes nothing. *)
Theorem remove_completed_topic_spec (completed_topics : list string)
    (topic_id : string) :
  NoDup completed_topics →
  remove_completed_topic completed_topics topic_id
  = Ok (filter (λ x, x ≠ topic_id) completed_topics).
Proof. apply remove_completed_topic_filter. Qed.

Lemma remove_completed_topic_spec_witness :
  NoDup ["start"; "llm-apis"; "security"] ∧
  remove_completed_topic ["start"; "llm-apis"; "security"] "llm-apis"
  = Ok ["start"; "security"].
Proof.
  assert (NoDup ["start"; "llm-apis"; "security"]) as Hnd.
  { apply (bool_decide_unpack _). vm_compute. reflexivity. }
  split; [exact Hnd|].
  exact (remove_completed_topic_spec ["start"; "llm-apis"; "security"]
           "llm-apis" Hnd).
Defined.

(** In a list with a repetition only the first occurrence goes. *)
Example remove_completed_topic_repeated :
  remove_completed_topic ["a"; "b"; "a"] "a" = Ok ["b"; "a"].
Proof. reflexivity. Qed.

(** X20: marking a new topic complete and removing it again gives the list
    back. *)
Theorem add_remove_completed_topic (completed_topics : list string)
    (topic_id : string) :
  topic_id ≠ EmptyString →
  topic_id ∉ completed_topics →
  remove_completed_topic
    (add_completed_topic completed_topics topic_id) topic_id
  = Ok completed_topics.
Proof.
  intros Hne Hnot. unfold add_completed_topic.
  destruct topic_id as [|a t]; [done|]. simpl.
  rewrite bool_decide_eq_true_2 by done. simpl.
  unfold remove_completed_topic.
  rewrite decide_True
    by (apply elem_of_app; right; apply list_elem_of_here).
  induction completed_topics as [|y l IH]; simpl.
  - by rewrite decide_True.
  - apply not_elem_of_cons in Hnot as [Hy Hl].
    rewrite decide_False by done. by rewrite IH.
Qed.

Lemma add_remove_completed_topic_witness :
  "security" ≠ EmptyString ∧
  ("security" ∉ ["start"; "llm-apis"]) ∧
  remove_completed_topic
    (add_completed_topic ["start"; "llm-apis"] "security") "security"
  = Ok ["start"; "llm-apis"].
Proof.
  assert ("security" ≠ EmptyString) as Hne by done.
  assert ("security" ∉ ["start"; "llm-apis"]) as Hnot.
  { apply (bool_decide_unpack _). vm_compute. reflexivity. }
  split_and!; [exact Hne | exact Hnot |].
  exact (add_remove_completed_topic ["start"; "llm-apis"] "security"
           Hne Hnot).
Defined.

(** X21: whatever buttons are clicked, starting from the empty list, no click
    raises, and the list of completed topics never holds an id twice, never
    holds the empty string, and holds only ids that were marked complete. *)
Theorem clicks_invariant (cs : list ProgressClick) :
  ∃ completed_topics,
    clicks [] cs = Ok completed_topics ∧
    NoDup completed_topics ∧
    (EmptyString ∉ completed_topics) ∧
    ∀ x, x ∈ completed_topics → MarkComplete x ∈ cs.
Proof.
  assert (∀ l, NoDup l → EmptyString ∉ l →
    ∃ l', clicks l cs = Ok l' ∧ NoDup l' ∧ (EmptyString ∉ l') ∧
          ∀ x, x ∈ l' → x ∈ l ∨ MarkComplete x ∈ cs) as H.
  { induction cs as [|c cs IH]; intros l Hnd Hne.
    - exists l. split_and!; [done | done | done | by left].
    - assert (∃ l1, click l c = Ok l1 ∧ NoDup l1 ∧ (EmptyString ∉ l1) ∧
                ∀ x, x ∈ l1 → x ∈ l ∨ MarkComplete x = c)
        as (l1 & Hc & Hnd1 & Hne1 & Hin1).
      { destruct c as [t|t|]; simpl.
        - eexists. split_and!; [done | by apply add_completed_topic_NoDup
                                | | ].
          + intros [?|[<- ?]]%elem_of_add_completed_topic; done.
          + intros x [?|[-> _]]%elem_of_add_completed_topic;
              [by left | by right].
        - rewrite remove_completed_topic_filter by done.
          eexists. split_and!; [done | by apply NoDup_filter | | ].
          + by intros [_ ?]%list_elem_of_filter.
          + intros x [_ ?]%list_elem_of_filter. by left.
        - exists []. split_and!; [done | apply NoDup_nil_2
                                  | apply not_elem_of_nil | ].
          intros x Hx. by apply elem_of_nil in Hx. }
      destruct (IH l1 Hnd1 Hne1) as (l' & Hrun & Hnd' & Hne' & Hin').
      exists l'. simpl. rewrite Hc. simpl.
      split_and!; [done | done | done |].
      intros x Hx. destruct (Hin' x Hx) as [Hx1|Hx1].
      + destruct (Hin1 x Hx1) as [?| <-]; [by left|].
        right. apply list_elem_of_here.
      + right. by apply list_elem_of_further. }
  destruct (H []) as (l' & Hrun & Hnd & Hne & Hin);
    [apply NoDup_nil_2 | apply not_elem_of_nil |].
  exists l'. split_and!; [done | done | done |].
  intros x Hx. destruct (Hin x Hx) as [Hx0|?]; [|done].
  by apply elem_of_nil in Hx0.
Qed.

Example clicks_session :
  clicks [] [MarkComplete "start"; MarkComplete "llm-apis";
             MarkComplete "start"; MarkComplete EmptyString;
             Remove "security"; Remove "start"; MarkComplete "security"]
  = Ok ["llm-apis"; "security"].
Proof. reflexivity. Qed.

Lemma filter_id_singleton r (t : string) (node : LearningNode) :
  repository_wf r → get_node_by_id r t = Some node →
  filter (λ n, Node.id n = t) (get_all_nodes r) = [node].
Proof.
  intros Hwf Hget. symmetry. apply Permutation_singleton_l.
  apply NoDup_Permutation.
  - apply NoDup_singleton.
  - apply NoDup_filter, get_all_nodes_NoDup, Hwf.
  - intros n. rewrite list_elem_of_singleton, list_elem_of_filter. split.
    + intros ->. split; [by apply (get_node_by_id_id r Hwf)|].
      by eapply get_node_by_id_stored.
    + intros [Hid Hn]. apply (get_all_nodes_get r Hwf) in Hn.
      rewrite Hid, Hget in Hn. by injection Hn.
Qed.

(** X22: in a consistent store, marking a stored topic complete that was not
    completed lowers the remaining hours by exactly the hours of its node. *)
Theorem add_completed_topic_remaining_hours (s : RoadmapService)
    (completed_topics : list string) (topic_id : string)
    (node : LearningNode) :
  repository_wf (_repository s) →
  get_node_by_id (_repository s) topic_id = Some node →
  topic_id ≠ EmptyString →
  topic_id ∉ completed_topics →
  calculate_remaining_hours s (add_completed_topic completed_topics topic_id)
  = calculate_remaining_hours s completed_topics - Node.estimated_hours node.
Proof.
  intros Hwf Hget Hne Hnot. set (r := _repository s) in *.
  rewrite !calculate_remaining_hours_Zsum. fold r.
  rewrite (Zsum_filter_split Node.estimated_hours (λ n, Node.id n = topic_id)
             (filter (λ n, Node.id n ∉ completed_topics) (get_all_nodes r))).
  rewrite !list_filter_filter.
  assert (filter (λ n, Node.id n = topic_id ∧ Node.id n ∉ completed_topics)
                 (get_all_nodes r) = [node]) as ->.
  { rewrite <-(filter_id_singleton r topic_id node Hwf Hget).
    apply filter_ext_in. intros n _. split; [by intros [? _]|].
    intros Hid. split; [done | by rewrite Hid]. }
  assert (filter (λ n, Node.id n ≠ topic_id ∧ Node.id n ∉ completed_topics)
                 (get_all_nodes r)
          = filter (λ n, Node.id n ∉
                      add_completed_topic completed_topics topic_id)
                   (get_all_nodes r)) as ->.
  { apply filter_ext_in. intros n _.
    rewrite elem_of_add_completed_topic. split.
    - intros [Hid Hn] [?|[? _]]; done.
    - intros Hn. split; intros ?; apply Hn; [by right | by left]. }
  unfold Zsum at 2. simpl. lia.
Qed.

Lemma add_completed_topic_remaining_hours_witness :
  ∃ node,
    repository_wf (_repository default_service) ∧
    get_node_by_id (_repository default_service) "ai-agents" = Some node ∧
    "ai-agents" ≠ EmptyString ∧
    ("ai-agents" ∉ ["start"; "llm-apis"]) ∧
    calculate_remaining_hours default_service
      (add_completed_topic ["start"; "llm-apis"] "ai-agents")
    = calculate_remaining_hours default_service ["start"; "llm-apis"]
      - Node.estimated_hours node.
Proof.
  destruct (get_node_by_id (_repository default_service) "ai-agents")
    as [node|] eqn:Hget; [|by vm_compute in Hget].
  exists node. pose proof default_repository_wf as Hwf.
  assert ("ai-agents" ≠ EmptyString) as Hne by done.
  assert ("ai-agents" ∉ ["start"; "llm-apis"]) as Hnot.
  { apply (bool_decide_unpack _). vm_compute. reflexivity. }
  split_and!; [exact Hwf | done | exact Hne | exact Hnot |].
  exact (add_completed_topic_remaining_hours default_service
           ["start"; "llm-apis"] "ai-agents" node Hwf Hget Hne Hnot).
Defined.
